(** * Intercom integration: lock + bulk-job coordinator (lib/index.js)

    A shallow embedding of the server-side Intercom integration.  The
    JavaScript source is written in continuation-passing style: every
    collaborator call ([this.lock], [redis.get], [post(..).end],
    [redis.set], [this.unlock]) takes a callback.  The embedding keeps
    that shape: a method is a tree of collaborator calls whose children
    are the callbacks, and the caller's [fn] is the continuation at the
    leaves. *)

From Stdlib Require Import ZArith String Ascii List Lia Bool.
From stdpp Require Import gmap strings list fin_maps.

Set Warnings "-register-all".
Local Open Scope string_scope.
Local Open Scope list_scope.
Local Open Scope Z_scope.

(** ** JavaScript values *)

(** The values that occur in settings and traits.  Numbers are the
    integers the code computes with (all far below 2^53, where doubles
    are exact); [VNaN] is the one non-integer number the code can make.
    A Date object holds a time in milliseconds ([VDate]) or is an
    Invalid Date ([VInvalidDate]). *)
Inductive Value : Type :=
| VUndefined
| VNull
| VBool (b : bool)
| VNum (n : Z)
| VNaN
| VStr (s : string)
| VDate (ms : Z)
| VInvalidDate
| VArr (items : list Value)
| VObj (fields : list (string * Value)).

Definition str_truthy (s : string) : bool :=
  match s with EmptyString => false | _ => true end.

(** ToBoolean. *)
Definition truthy (v : Value) : bool :=
  match v with
  | VUndefined | VNull | VNaN => false
  | VBool b => b
  | VNum n => negb (n =? 0)
  | VStr s => str_truthy s
  | VDate _ | VInvalidDate | VArr _ | VObj _ => true
  end.

(** A string-or-undefined, as the facade accessors and redis return. *)
Definition opt_truthy (o : option string) : bool :=
  match o with Some s => str_truthy s | None => false end.

(** [a || b] on string-or-undefined. *)
Definition js_or (a b : option string) : option string :=
  if opt_truthy a then a else b.

(** [Array.prototype.join]: undefined and null elements print as the
    empty string. *)
Definition join (sep : string) (xs : list (option string)) : string :=
  match xs with
  | [] => ""
  | x :: rest =>
      fold_left (fun acc y => acc +:+ sep +:+ default "" y) rest (default "" x)
  end.

(** String concatenation with [+]: undefined prints as "undefined". *)
Definition to_str (o : option string) : string := default "undefined" o.

(** ** Strings *)

Definition lower_ascii (c : ascii) : ascii :=
  let n := nat_of_ascii c in
  if ((65 <=? n) && (n <=? 90))%nat then ascii_of_nat (n + 32) else c.

(** [String.prototype.toLowerCase], on ASCII. *)
Fixpoint toLowerCase (s : string) : string :=
  match s with
  | EmptyString => EmptyString
  | String c r => String (lower_ascii c) (toLowerCase r)
  end.

Definition strlen (s : string) : Z := Z.of_nat (String.length s).

(** [str.substr(start, len)]; [len = None] when the argument is left
    out.  A negative [start] counts from the end. *)
Definition substr (s : string) (start : Z) (len : option Z) : string :=
  let size := strlen s in
  let st := if start <? 0 then Z.max (size + start) 0 else Z.min start size in
  let ln :=
    match len with
    | None => size - st
    | Some l => Z.min (Z.max l 0) (size - st)
    end in
  String.substring (Z.to_nat st) (Z.to_nat ln) s.

Definition endswith (str suffix : string) : bool :=
  let str := toLowerCase str in
  String.eqb (substr str (strlen str - strlen suffix) None) suffix.

Definition dateKey (key : string) : string :=
  if endswith key "_at" then key
  else if endswith key " at" then substr key 0 (Some (strlen key - 3)) +:+ "_at"
  else key +:+ "_at".

(** ** Settings, messages, responses *)

Record Settings : Type := {
  appId : option string;
  apiKey : option string;
  (** [settings.oauth]: absent, or an object whose ['access-token'] may
      be absent. *)
  oauth : option (option string);
  isBulkAPIEnabled : Value
}.

Inductive Action : Type := AIdentify | ATrack | AGroup.

Definition action_name (a : Action) : string :=
  match a with AIdentify => "identify" | ATrack => "track" | AGroup => "group" end.

(** A facade message, by the accessors the integration calls on it;
    [json] is the raw message that [msg.json()] returns. *)
Record Msg : Type := {
  action : Action;
  userId : option string;
  email : option string;
  groupId : option string;
  json : Value
}.

(** An error object handed to a callback. *)
Record Err : Type := { message : string }.

(** [res.body] of a bulk-job response: [id] and [closing_at]
    ([None] when the field is missing). *)
Record Job : Type := {
  job_id : option string;
  closing_at : option Z
}.

Record Response : Type := {
  status : Z;
  body : Job
}.

Record Headers : Type := {
  Authorization : string;
  User_Agent : string
}.

(** What the callback wrapped by [self.handle] receives: either no error
    and a response, or an error and possibly a response. *)
Inductive PostReply : Type :=
| PostOk (res : Response)
| PostErr (e : Err) (res : option Response).

Definition reply_err (r : PostReply) : option Err :=
  match r with PostOk _ => None | PostErr e _ => Some e end.

Definition reply_res (r : PostReply) : option Response :=
  match r with PostOk res => Some res | PostErr _ res => res end.

(** [redis.get(key, function(err, jobId))]. *)
Inductive GetReply : Type :=
| GetErr (e : Err)
| GetOk (jobId : option string).

(** [redis.set(.., function(fail, ok))]. *)
Inductive SetReply : Type :=
| SetFail (e : Err)
| SetOk.

(** ** Fixtures

    The settings of the test suite, one message of each kind for the
    same user, and stand-ins for the collaborators. *)

Definition test_settings : Settings :=
  {| appId := Some "fcxywseo";
     apiKey := Some "9d068fa090d38be4c715b669b3f1370f76ac5306";
     oauth := None;
     isBulkAPIEnabled := VUndefined |}.

Definition test_settings_v1 : Settings :=
  {| appId := Some "fcxywseo";
     apiKey := Some "9d068fa090d38be4c715b669b3f1370f76ac5306";
     oauth := None;
     isBulkAPIEnabled := VBool true |}.

Definition test_message (a : Action) : Msg :=
  {| action := a;
     userId := Some "user42";
     email := None;
     groupId := None;
     json := VObj [("userId", VStr "user42")] |}.

Definition test_mapper (a : Action) (m : Msg) (s : Settings) : string :=
  action_name a.

Definition test_base64 (x : string) : string := x.

Definition test_Identify (j : Value) : Msg := test_message AIdentify.

Definition server_error : Err := {| message := "Internal Server Error" |}.

Definition created_J2 : Response :=
  {| status := 200;
     body := {| job_id := Some "J2"; closing_at := Some 1900000 |} |}.

Definition test_settings_oauth : Settings :=
  {| appId := None;
     apiKey := None;
     oauth := Some (Some "tok_123");
     isBulkAPIEnabled := VUndefined |}.

(** A group message with traits that already carry an [id]. *)
Definition test_group : Msg :=
  {| action := AGroup;
     userId := Some "user42";
     email := None;
     groupId := Some "g1";
     json := VObj [("userId", VStr "user42");
                   ("traits", VObj [("name", VStr "Segment.io");
                                    ("id", VStr "old")])] |}.

Section Integration.

(** The collaborators that live outside lib/index.js: the two mappers
    ([./v1.mapper], [./v2.mapper]), [Buffer]'s base64 encoding and the
    facade constructor [new Identify(json)]. *)
Context {Payload : Type}.
Variable mapperV1 : Action -> Msg -> Settings -> Payload.
Variable mapperV2 : Action -> Msg -> Settings -> Payload.
Variable base64 : string -> string.
Variable Identify_new : Value -> Msg.

(** The JSON sent: the mapper's output, plus the [job] field that
    [addToExisting] sets ([data.job = { id: jobId }]). *)
Record Data : Type := {
  items : Payload;
  job : option string
}.

(** ** Programs in continuation-passing style *)

Inductive Prog : Type :=
| Lock (key : string) (k : option Err -> Prog)
| Unlock (key : string) (k : option Err -> Prog)
| RedisGet (key : string) (k : GetReply -> Prog)
| RedisSet (key : string) (val : option string) (px : option Z)
           (k : SetReply -> Prog)
| Post (endpoint : string) (h : Headers) (data : Data) (k : PostReply -> Prog)
| DateNow (k : Z -> Prog)
| Return (err : option Err) (res : option Response).

(** The caller's [fn(err, res)]. *)
Definition Callback : Type := option Err -> option Response -> Prog.

(** ** lib/index.js *)

Definition oauthTokenExists (o : option (option string)) : bool :=
  match o with
  | Some (Some tok) => str_truthy tok
  | _ => false
  end.

Definition userAgent : string := "Segment.io/1.0.0".

Definition headers (s : Settings) : Headers :=
  let auth :=
    if oauthTokenExists (oauth s)
    then "Bearer " +:+ to_str (mjoin (oauth s))
    else "Basic " +:+ base64 (to_str (appId s) +:+ ":" +:+ to_str (apiKey s)) in
  {| Authorization := auth; User_Agent := userAgent |}.

Definition dataType (msg : Msg) : string :=
  match action msg with ATrack => "events" | _ => "users" end.

(** [Date.now() - job.closing_at - 15000]; a missing [closing_at] makes
    the result NaN ([None]). *)
Definition expiration (now : Z) (job : Job) : option Z :=
  match closing_at job with
  | Some c => Some (now - c - 15000)
  | None => None
  end.

Definition createNewJob (s : Settings) (msg : Msg) (key : string) (fn : Callback)
  : Prog :=
  let id := js_or (userId msg) (email msg) in
  let endpoint := "/bulk/" +:+ dataType msg in
  let jobKey := join ":" [appId s; Some "jobs"; Some (dataType msg); id] in
  Post endpoint (headers s)
    {| items := mapperV2 (action msg) msg s; job := None |}
    (fun r =>
       match r with
       | PostErr e res => Unlock key (fun _ => fn (Some e) res)
       | PostOk res =>
           let job := body res in
           DateNow (fun now =>
             RedisSet jobKey (job_id job) (expiration now job)
               (fun _ => Unlock key (fun _ => fn None (Some res))))
       end).

Definition addToExisting (s : Settings) (jobId : string) (msg : Msg)
  (key : string) (fn : Callback) : Prog :=
  let endpoint := "/bulk/" +:+ dataType msg in
  Post endpoint (headers s)
    {| items := mapperV2 (action msg) msg s; job := Some jobId |}
    (fun r =>
       match r with
       | PostErr _ _ => createNewJob s msg key fn
       | PostOk res => Unlock key (fun _ => fn None (Some res))
       end).

Definition identifyV2 (s : Settings) (identify : Msg) (fn : Callback) : Prog :=
  let id := js_or (userId identify) (email identify) in
  let key := join ":" [appId s; id] in
  Lock key (fun err =>
    match err with
    | Some e => fn (Some e) None
    | None =>
        Post "/users" (headers s)
          {| items := mapperV2 AIdentify identify s; job := None |}
          (fun r => Unlock key (fun _ => fn (reply_err r) (reply_res r)))
    end).

Definition groupV2 (s : Settings) (group : Msg) (fn : Callback) : Prog :=
  let id := js_or (userId group) (email group) in
  let key := join ":" [appId s; Some "groups"; id] in
  Lock key (fun err =>
    match err with
    | Some e => fn (Some e) None
    | None =>
        let jobKey := join ":" [appId s; Some "jobs"; Some "users"; id] in
        RedisGet jobKey (fun r =>
          match r with
          | GetErr e => Unlock key (fun _ => fn (Some e) None)
          | GetOk jobId =>
              if opt_truthy jobId
              then addToExisting s (default "" jobId) group key fn
              else createNewJob s group key fn
          end)
    end).

Definition trackV2 (s : Settings) (event : Msg) (fn : Callback) : Prog :=
  let id := js_or (userId event) (email event) in
  let key := join ":" [appId s; id] in
  Lock key (fun err =>
    match err with
    | Some e => fn (Some e) None
    | None =>
        let jobKey := join ":" [appId s; Some "jobs"; Some "events"; id] in
        RedisGet jobKey (fun r =>
          match r with
          | GetErr e => Unlock key (fun _ => fn (Some e) None)
          | GetOk jobId =>
              if opt_truthy jobId
              then addToExisting s (default "" jobId) event key fn
              else createNewJob s event key fn
          end)
    end).

Definition identifyV1 (s : Settings) (identify : Msg) (fn : Callback) : Prog :=
  let id := js_or (userId identify) (email identify) in
  let key := join ":" [appId s; id] in
  Lock key (fun err =>
    match err with
    | Some e => fn (Some e) None
    | None =>
        Post "/users" (headers s)
          {| items := mapperV1 AIdentify identify s; job := None |}
          (fun r => Unlock key (fun _ => fn (reply_err r) (reply_res r)))
    end).

(** [obj[k] = v] on an own-property list: an existing key keeps its
    place, a new one goes last. *)
Fixpoint set_field (k : string) (v : Value) (fs : list (string * Value))
  : list (string * Value) :=
  match fs with
  | [] => [(k, v)]
  | (k', v') :: rest =>
      if String.eqb k' k then (k, v) :: rest else (k', v') :: set_field k v rest
  end.

Fixpoint get_field (k : string) (fs : list (string * Value)) : Value :=
  match fs with
  | [] => VUndefined
  | (k', v') :: rest => if String.eqb k' k then v' else get_field k rest
  end.

(** [o[k]] and [o[k] = v]; the assignment is silently dropped on a
    primitive (the file is not in strict mode). *)
Definition prop (k : string) (o : Value) : Value :=
  match o with VObj fs => get_field k fs | _ => VUndefined end.

Definition assign (k : string) (v : Value) (o : Value) : Value :=
  match o with VObj fs => VObj (set_field k v fs) | _ => o end.

Definition of_opt (o : option string) : Value :=
  match o with Some x => VStr x | None => VUndefined end.

(** [self.identify] is whatever [initialize] installed. *)
Definition groupV1 (s : Settings) (self_identify : Msg -> Callback -> Prog)
  (group : Msg) (fn : Callback) : Prog :=
  let json := json group in
  let traits := if truthy (prop "traits" json) then prop "traits" json else VObj [] in
  Post "/companies" (headers s)
    {| items := mapperV1 AGroup group s; job := None |}
    (fun r =>
       match reply_err r with
       | Some e => fn (Some e) None
       | None =>
           let json := assign "userId" (of_opt (userId group)) json in
           let traits := assign "id" (of_opt (groupId group)) traits in
           let json := assign "traits" (VObj [("companies", VArr [traits])]) json in
           let identify := Identify_new json in
           self_identify identify fn
       end).

Definition trackV1 (s : Settings) (track : Msg) (fn : Callback) : Prog :=
  Post "/events" (headers s)
    {| items := mapperV1 ATrack track s; job := None |}
    (fun r => fn (reply_err r) (reply_res r)).

(** The method table of an integration instance. *)
Record Methods : Type := {
  identify : Msg -> Callback -> Prog;
  track : Msg -> Callback -> Prog;
  group : Msg -> Callback -> Prog
}.

Definition initialize (s : Settings) : Methods :=
  if truthy (isBulkAPIEnabled s) then
    {| identify := identifyV1 s;
       track := trackV1 s;
       group := groupV1 s (identifyV1 s) |}
  else
    {| identify := identifyV2 s;
       track := trackV2 s;
       group := groupV2 s |}.

(** The two bulk-mode entry points, their lock key and their job key. *)
Inductive Bulk : Type := BTrack | BGroup.

Definition bulk (b : Bulk) : Settings -> Msg -> Callback -> Prog :=
  match b with BTrack => trackV2 | BGroup => groupV2 end.

Definition lockKey (b : Bulk) (s : Settings) (msg : Msg) : string :=
  let id := js_or (userId msg) (email msg) in
  match b with
  | BTrack => join ":" [appId s; id]
  | BGroup => join ":" [appId s; Some "groups"; id]
  end.

Definition jobKey (b : Bulk) (s : Settings) (msg : Msg) : string :=
  let id := js_or (userId msg) (email msg) in
  match b with
  | BTrack => join ":" [appId s; Some "jobs"; Some "events"; id]
  | BGroup => join ":" [appId s; Some "jobs"; Some "users"; id]
  end.

(** ** One request run to completion

    A run is driven by the replies of the collaborators, in the order in
    which the calls are made; the trace lists the calls and ends with the
    caller's callback. *)

Inductive Reply : Type :=
| RLock (err : option Err)
| RUnlock (err : option Err)
| RGet (r : GetReply)
| RSet (r : SetReply)
| RPost (r : PostReply)
| RNow (t : Z).

Inductive Event : Type :=
| EvLock (key : string) (err : option Err)
| EvUnlock (key : string)
| EvGet (key : string)
| EvSet (key : string) (val : option string) (px : option Z)
| EvPost (endpoint : string) (h : Headers) (data : Data)
| EvNow
| EvCallback (err : option Err) (res : option Response).

(** [None]: the replies do not fit the calls the program makes. *)
Fixpoint exec (p : Prog) (rs : list Reply) : option (list Event) :=
  match p, rs with
  | Return e r, [] => Some [EvCallback e r]
  | Lock key k, RLock err :: rs' => cons (EvLock key err) <$> exec (k err) rs'
  | Unlock key k, RUnlock err :: rs' => cons (EvUnlock key) <$> exec (k err) rs'
  | RedisGet key k, RGet r :: rs' => cons (EvGet key) <$> exec (k r) rs'
  | RedisSet key v px k, RSet r :: rs' => cons (EvSet key v px) <$> exec (k r) rs'
  | Post ep h d k, RPost r :: rs' => cons (EvPost ep h d) <$> exec (k r) rs'
  | DateNow k, RNow t :: rs' => cons EvNow <$> exec (k t) rs'
  | _, _ => None
  end.

Fixpoint count (f : Event -> bool) (t : list Event) : nat :=
  match t with
  | [] => O
  | ev :: t' => if f ev then S (count f t') else count f t'
  end.

Definition is_unlock (ev : Event) : bool :=
  match ev with EvUnlock _ => true | _ => false end.

Definition is_bulk_post (ev : Event) : bool :=
  match ev with EvPost ep _ _ => String.prefix "/bulk/" ep | _ => false end.

(** An append carries the job to add to; a create carries none. *)
Definition is_append (ev : Event) : bool :=
  match ev with
  | EvPost ep _ d => String.prefix "/bulk/" ep && bool_decide (is_Some (job d))
  | _ => false
  end.

Definition is_create (ev : Event) : bool :=
  match ev with
  | EvPost ep _ d => String.prefix "/bulk/" ep && bool_decide (job d = None)
  | _ => false
  end.

Definition is_redis (ev : Event) : bool :=
  match ev with EvGet _ | EvSet _ _ _ => true | _ => false end.

Definition is_lock (ev : Event) : bool :=
  match ev with EvLock _ _ | EvUnlock _ => true | _ => false end.

(** ** Shape of a request with respect to its lock

    [finished p]: [p] is the caller's callback being invoked.
    [holding key p]: [p] makes no lock call, and whatever the replies,
    its next unlock is of [key] and is followed at once by the callback.
    [request key p]: [p] starts by locking [key]; a failed lock goes
    straight to the callback, a granted one continues [holding key]. *)

Definition finished (p : Prog) : Prop :=
  match p with Return _ _ => True | _ => False end.

Fixpoint holding (key : string) (p : Prog) : Prop :=
  match p with
  | Lock _ _ => False
  | Unlock key' k => key' = key /\ forall u, finished (k u)
  | RedisGet _ k => forall r, holding key (k r)
  | RedisSet _ _ _ k => forall r, holding key (k r)
  | Post _ _ _ k => forall r, holding key (k r)
  | DateNow k => forall t, holding key (k t)
  | Return _ _ => False
  end.

Definition request (key : string) (p : Prog) : Prop :=
  match p with
  | Lock key' k =>
      key' = key /\ holding key (k None) /\ forall e, finished (k (Some e))
  | _ => False
  end.

(** The key a program locks first, if it starts by locking. *)
Definition lock_key_of (p : Prog) : option string :=
  match p with Lock key _ => Some key | _ => None end.

(** ** Requests running concurrently

    Each request is one program of the pool; a step runs the next
    collaborator call of one of them and hands the reply to its
    callback.  Upstream, job directory and clock may reply anything.
    [held] is the set of lock keys in the lock store; [expired] remembers
    the keys whose lock has expired at some point of the run. *)

Record Config : Type := {
  pool : list Prog;
  held : gset string;
  log : list (nat * Event);
  expired : gset string
}.

Definition start (ps : list Prog) : Config :=
  {| pool := ps; held := ∅; log := []; expired := ∅ |}.

Definition advance (c : Config) (i : nat) (p : Prog) (h : gset string)
  (ev : Event) : Config :=
  {| pool := <[i := p]> (pool c); held := h; log := log c ++ [(i, ev)];
     expired := expired c |}.

(** Modelled from the spec: the safety TTL of the lock (4.1, 5), which
    like the lock belongs to the base library, fires: [key] leaves the
    lock store without a release. *)
Definition expire (c : Config) (key : string) : Config :=
  {| pool := pool c; held := held c ∖ {[key]}; log := log c;
     expired := {[key]} ∪ expired c |}.

(** Modelled from the spec: [this.lock] and [this.unlock] come from the
    integration base library, which is not part of lib/index.js.  As in
    the KeyedLock contract (4.1, 5): a key is granted only while no
    other holder has it, an acquisition may instead fail with an error
    and then grants nothing, a release relinquishes the key (a release
    whose store call errors leaves it held), and the lock carries a
    safety TTL, so that a held key may expire at any moment, whatever
    its holder is doing. *)
Inductive step : Config -> Config -> Prop :=
| step_lock_granted c i key k :
    pool c !! i = Some (Lock key k) ->
    key ∉ held c ->
    step c (advance c i (k None) ({[key]} ∪ held c) (EvLock key None))
| step_lock_failed c i key k e :
    pool c !! i = Some (Lock key k) ->
    step c (advance c i (k (Some e)) (held c) (EvLock key (Some e)))
| step_unlock c i key k :
    pool c !! i = Some (Unlock key k) ->
    step c (advance c i (k None) (held c ∖ {[key]}) (EvUnlock key))
| step_unlock_failed c i key k e :
    pool c !! i = Some (Unlock key k) ->
    step c (advance c i (k (Some e)) (held c) (EvUnlock key))
| step_get c i key k r :
    pool c !! i = Some (RedisGet key k) ->
    step c (advance c i (k r) (held c) (EvGet key))
| step_set c i key v px k r :
    pool c !! i = Some (RedisSet key v px k) ->
    step c (advance c i (k r) (held c) (EvSet key v px))
| step_post c i ep h d k r :
    pool c !! i = Some (Post ep h d k) ->
    step c (advance c i (k r) (held c) (EvPost ep h d))
| step_now c i k t :
    pool c !! i = Some (DateNow k) ->
    step c (advance c i (k t) (held c) EvNow)
| step_expire c key :
    key ∈ held c ->
    step c (expire c key).

(** What the log says about request [i]. *)
Definition acquired (i : nat) (key : string) (l : list (nat * Event)) : Prop :=
  (i, EvLock key None) ∈ l.

Definition released (i : nat) (key : string) (l : list (nat * Event)) : Prop :=
  (i, EvUnlock key) ∈ l.

Definition silent (i : nat) (l : list (nat * Event)) : Prop :=
  forall ev, (i, ev) ∉ l.

(** Where request [i], whose lock key is [key], stands.  A holder's key
    is in the lock store unless it has expired. *)
Inductive phase (c : Config) (i : nat) (key : string) (p : Prog) : Prop :=
| ph_waiting :
    request key p -> silent i (log c) -> phase c i key p
| ph_holding :
    holding key p -> (key ∉ expired c -> key ∈ held c) ->
    acquired i key (log c) -> ~ released i key (log c) ->
    phase c i key p
| ph_finished :
    finished p ->
    (acquired i key (log c) -> released i key (log c)) ->
    phase c i key p.

(** At each grant of a [key] that is not among the [dead] ones to [j]:
    [j] has made no call before, and any other request on [key] that was
    granted it earlier has released it and makes no call afterwards. *)
Definition ordered (keys : list string) (dead : gset string)
  (l : list (nat * Event)) : Prop :=
  forall j key l1 l2,
    key ∉ dead ->
    keys !! j = Some key ->
    l = l1 ++ (j, EvLock key None) :: l2 ->
    silent j l1 /\
    forall i, i <> j -> keys !! i = Some key -> acquired i key l1 ->
              released i key l1 /\ silent i l2.

Record Inv (keys : list string) (c : Config) : Prop := {
  inv_length : length (pool c) = length keys;
  inv_phase : forall i key p,
    keys !! i = Some key -> pool c !! i = Some p -> phase c i key p;
  inv_exclusive : forall i j key pi pj,
    key ∉ expired c ->
    i <> j -> keys !! i = Some key -> keys !! j = Some key ->
    pool c !! i = Some pi -> pool c !! j = Some pj ->
    holding key pi -> holding key pj -> False;
  inv_ordered : ordered keys (expired c) (log c)
}.

(** The calls of the bulk-job coordinator, each with the caller's
    callback at the end. *)
Inductive Call : Type :=
| CIdentify (msg : Msg)
| CTrack (msg : Msg)
| CGroup (msg : Msg).

Definition program (s : Settings) (c : Call) : Prog :=
  match c with
  | CIdentify m => identifyV2 s m Return
  | CTrack m => trackV2 s m Return
  | CGroup m => groupV2 s m Return
  end.

Definition call_key (s : Settings) (c : Call) : string :=
  match c with
  | CIdentify m => join ":" [appId s; js_or (userId m) (email m)]
  | CTrack m => join ":" [appId s; js_or (userId m) (email m)]
  | CGroup m => join ":" [appId s; Some "groups"; js_or (userId m) (email m)]
  end.


(** ** Traits *)

Section Traits.

(** The [isostring] and [unix-time] packages, which live outside
    lib/index.js: [isostring] tests a string; [time] turns a date into a
    number, an integer timestamp or NaN ([None]), as it is for an
    Invalid Date. *)
Variable isostring : string -> bool.
Variable time : Value -> option Z.

Definition number (o : option Z) : Value :=
  match o with Some n => VNum n | None => VNaN end.

Definition is_isostring (v : Value) : bool :=
  match v with VStr x => isostring x | _ => false end.

(** [is.date]: any Date object, valid or not. *)
Definition is_date (v : Value) : bool :=
  match v with VDate _ | VInvalidDate => true | _ => false end.

Definition date_like (val : Value) : bool := is_isostring val || is_date val.

(** The body of the [forEach] callback up to the assignment: the key and
    the value that get written for one property. *)
Definition format_entry (kv : string * Value) : string * Value :=
  let (key, val) := kv in
  if date_like val then (dateKey key, number (time val)) else (key, val).

(** [traits] lists the own properties of the object in the order of
    [Object.keys]; [output] holds the own properties of the object being
    filled.  [output[key] = val] adds or replaces an own property, except
    for the key "__proto__": on the plain object [output] that assignment
    goes to the prototype setter and makes no own property. *)
Definition write_entry (output : gmap string Value) (kv : string * Value)
  : gmap string Value :=
  let (key, val) := format_entry kv in
  if String.eqb key "__proto__" then output else <[key := val]> output.

Definition formatTraits (traits : list (string * Value)) : gmap string Value :=
  fold_left write_entry traits ∅.

(** [formatTraits] read entry by entry on the returned object: every
    property of [traits] is found in it, under its canonical key and
    with its converted value when it is a date, as it was otherwise. *)
Definition every_entry_formatted (traits : list (string * Value)) : Prop :=
  forall kv, kv ∈ traits ->
    formatTraits traits !! fst (format_entry kv) = Some (snd (format_entry kv)).

End Traits.

(** ** The validation of settings, and more vocabulary on traces *)

(** The first [ensure] of the integration: nothing ([None]) when the
    settings carry an oauth token or both [apiKey] and [appId], the
    invalid-settings message otherwise. *)
Definition ensure_credentials (s : Settings) : option string :=
  if oauthTokenExists (oauth s) then None
  else if opt_truthy (apiKey s) && opt_truthy (appId s) then None
  else Some ".apiKey and .appId is required if .oauth['access-token'] is absent".

(** The json that [groupV1] hands to [new Identify], once the companies
    post has succeeded. *)
Definition group_json (group : Msg) : Value :=
  let json := json group in
  let traits := if truthy (prop "traits" json) then prop "traits" json else VObj [] in
  let json := assign "userId" (of_opt (userId group)) json in
  let traits := assign "id" (of_opt (groupId group)) traits in
  assign "traits" (VObj [("companies", VArr [traits])]) json.

Definition is_get (ev : Event) : bool :=
  match ev with EvGet _ => true | _ => false end.

Definition is_set (ev : Event) : bool :=
  match ev with EvSet _ _ _ => true | _ => false end.

(** ** Reading a complete run

    [run H] follows a hypothesis [H : exec p rs = Some t] through the
    program, one reply at a time, until the trace is known. *)
Ltac run_step H :=
  match type of H with
  | cons _ <$> ?o = Some _ =>
      let t' := fresh "t" in
      let E := fresh "E" in
      destruct o as [t'|] eqn:E; simpl in H;
      [injection H as <-; rename E into H | discriminate H]
  | Some _ = Some _ => injection H as <-
  | None = Some _ => discriminate H
  | exec (match ?x with _ => _ end) _ = Some _ =>
      first [is_var x; destruct x | destruct x eqn:?]; simpl in H
  | match ?l ++ _ with _ => _ end = Some _ =>
      is_var l; destruct l as [|[] l]; simpl in H
  | match ?x with _ => _ end = Some _ =>
      first [is_var x; destruct x | destruct x eqn:?]; simpl in H
  | exec _ ?rs = Some _ =>
      is_var rs; destruct rs as [|[] rs]; simpl in H
  | exec _ (?l ++ _) = Some _ =>
      is_var l; destruct l as [|[] l]; simpl in H
  | exec _ _ = Some _ => progress simpl in H
  end.

Ltac run H := repeat (run_step H; try discriminate).

(** * Theorems *)

(** ** Runs and shapes *)

Lemma exec_cons_Some (ev : Event) (o : option (list Event)) (t : list Event) :
  cons ev <$> o = Some t -> exists t', o = Some t' /\ t = ev :: t'.
Proof. destruct o; simpl; intros H; inversion H; eauto. Qed.

Lemma count_app (f : Event -> bool) (t1 t2 : list Event) :
  count f (t1 ++ t2) = (count f t1 + count f t2)%nat.
Proof.
  induction t1 as [|ev t1 IH]; simpl; [reflexivity|].
  destruct (f ev); simpl; rewrite IH; reflexivity.
Qed.

Lemma finished_exec (p : Prog) (rs : list Reply) (t : list Event) :
  finished p -> exec p rs = Some t -> exists e r, t = [EvCallback e r].
Proof.
  destruct p; simpl; try contradiction.
  intros _ H. destruct rs; [|discriminate]. injection H as <-. eauto.
Qed.

(** A program that holds the lock makes no further lock call, releases
    the key once, and the callback is the next thing that happens. *)
Lemma holding_exec (key : string) (p : Prog) :
  holding key p ->
  forall rs t, exec p rs = Some t ->
  exists pre e r,
    t = pre ++ [EvUnlock key; EvCallback e r] /\ count is_lock pre = O.
Proof.
  induction p as [key' k IH|key' k IH|key' k IH|key' v px k IH|ep h d k IH|k IH|e r];
    simpl; intros Hh rs t Hex; try contradiction.
  - destruct Hh as [-> Hfin].
    destruct rs as [|[] rs]; try discriminate.
    apply exec_cons_Some in Hex as (t' & Hex & ->).
    destruct (finished_exec _ _ _ (Hfin err) Hex) as (e & r & ->).
    exists [], e, r. split; reflexivity.
  - destruct rs as [|[] rs]; try discriminate.
    apply exec_cons_Some in Hex as (t' & Hex & ->).
    destruct (IH _ (Hh _) _ _ Hex) as (pre & e & r0 & -> & Hc).
    exists (EvGet key' :: pre), e, r0. split; [reflexivity | exact Hc].
  - destruct rs as [|[] rs]; try discriminate.
    apply exec_cons_Some in Hex as (t' & Hex & ->).
    destruct (IH _ (Hh _) _ _ Hex) as (pre & e & r0 & -> & Hc).
    exists (EvSet key' v px :: pre), e, r0. split; [reflexivity | exact Hc].
  - destruct rs as [|[] rs]; try discriminate.
    apply exec_cons_Some in Hex as (t' & Hex & ->).
    destruct (IH _ (Hh _) _ _ Hex) as (pre & e & r0 & -> & Hc).
    exists (EvPost ep h d :: pre), e, r0. split; [reflexivity | exact Hc].
  - destruct rs as [|[] rs]; try discriminate.
    apply exec_cons_Some in Hex as (t' & Hex & ->).
    destruct (IH _ (Hh _) _ _ Hex) as (pre & e & r0 & -> & Hc).
    exists (EvNow :: pre), e, r0. split; [reflexivity | exact Hc].
Qed.

Lemma createNewJob_holding (s : Settings) (msg : Msg) (key : string) :
  holding key (createNewJob s msg key Return).
Proof. simpl. intros [res|e res]; simpl; auto. Qed.

Lemma addToExisting_holding (s : Settings) (j : string) (msg : Msg) (key : string) :
  holding key (addToExisting s j msg key Return).
Proof.
  simpl. intros [res|e res]; [simpl; auto|].
  apply createNewJob_holding.
Qed.

(** Every coordinator call has the shape of a request on its lock key. *)
Lemma program_request (s : Settings) (c : Call) :
  request (call_key s c) (program s c).
Proof.
  destruct c as [m|m|m]; hnf; (split; [reflexivity|split; [|exact (fun _ => I)]]).
  - intros r. split; [reflexivity | exact (fun _ => I)].
  - intros [e|jobId]; [split; [reflexivity | exact (fun _ => I)]|].
    destruct (opt_truthy jobId);
      [apply addToExisting_holding | apply createNewJob_holding].
  - intros [e|jobId]; [split; [reflexivity | exact (fun _ => I)]|].
    destruct (opt_truthy jobId);
      [apply addToExisting_holding | apply createNewJob_holding].
Qed.

Lemma identifyV1_request (s : Settings) (m : Msg) :
  request (join ":" [appId s; js_or (userId m) (email m)]) (identifyV1 s m Return).
Proof.
  simpl. split; [reflexivity|split; [|exact (fun _ => I)]].
  intros r. split; [reflexivity | exact (fun _ => I)].
Qed.

Lemma count_unlock_le_lock (t : list Event) :
  count is_lock t = O -> count is_unlock t = O.
Proof.
  induction t as [|ev t IH]; [reflexivity|].
  simpl. destruct ev; simpl; try discriminate; exact IH.
Qed.

(** The V1 identify, the one V1 method that locks, releases once too. *)
Lemma identifyV1_unlocks_once (s : Settings) (m : Msg)
    (rs : list Reply) (t : list Event) :
  exec (identifyV1 s m Return) (RLock None :: rs) = Some t ->
  count is_unlock t = 1%nat.
Proof.
  intros H. pose proof (identifyV1_request s m) as Hreq.
  destruct (identifyV1 s m Return) as [key k| | | | | |];
    simpl in Hreq; try contradiction.
  destruct Hreq as (_ & Hhold & _).
  simpl in H. apply exec_cons_Some in H as (t' & H & ->).
  destruct (holding_exec _ _ Hhold _ _ H) as (pre & e & r & -> & Hc).
  simpl. rewrite count_app, (count_unlock_le_lock _ Hc). reflexivity.
Qed.

(** ** The coordinator, one request at a time *)

(** C1. A bulk request (track or group) whose lookup found a job id
    first posts an append carrying that id, and that is its only append.
    When the append fails, whatever the error, the next call is a create
    (the same post without a job) and the only one, and the callback
    gets the error and response of the create alone: after a successful
    create, no error and the create's response. *)
Theorem append_failure_falls_back_to_create
    (b : Bulk) (s : Settings) (msg : Msg) (j : string)
    (rs : list Reply) (t : list Event) :
  str_truthy j = true ->
  exec (bulk b s msg Return) (RLock None :: RGet (GetOk (Some j)) :: rs)
    = Some t ->
  exists appended rest tail,
    rs = RPost appended :: rest /\
    t = EvLock (lockKey b s msg) None
        :: EvGet (jobKey b s msg)
        :: EvPost ("/bulk/" +:+ dataType msg) (headers s)
             {| items := mapperV2 (action msg) msg s; job := Some j |}
        :: tail /\
    count is_append t = 1%nat /\
    forall e res1, appended = PostErr e res1 ->
      exists created rest' tail',
        rest = RPost created :: rest' /\
        tail = EvPost ("/bulk/" +:+ dataType msg) (headers s)
                 {| items := mapperV2 (action msg) msg s; job := None |}
               :: tail' /\
        count is_create t = 1%nat /\
        last t = Some (EvCallback (reply_err created) (reply_res created)) /\
        (forall res, created = PostOk res ->
                     last t = Some (EvCallback None (Some res))).
Proof.
  intros Hj H. destruct msg as [a uid em gid tr].
  destruct b, a; simpl in H; rewrite Hj in H; run H;
    (eexists _, _, _; split; [reflexivity|]; split; [reflexivity|];
     split; [reflexivity|]);
    intros e' res1' [=]; subst;
    (eexists _, _, _; split; [reflexivity|]; split; [reflexivity|]);
    (repeat split; try reflexivity; intros ? [=]; subst; reflexivity).
Qed.

(** C2. In every complete run of a request whose lock was granted
    (identify, track or group; append, fallback, create failure or
    directory failure alike) the trace is the lock, calls that are not
    lock calls, one unlock of the same key, and then the callback. *)
Theorem unlock_once_before_callback
    (s : Settings) (c : Call) (rs : list Reply) (t : list Event) :
  exec (program s c) (RLock None :: rs) = Some t ->
  exists pre e r,
    t = EvLock (call_key s c) None :: pre
        ++ [EvUnlock (call_key s c); EvCallback e r] /\
    count is_lock pre = O /\
    count is_unlock t = 1%nat.
Proof.
  intros H. pose proof (program_request s c) as Hreq.
  destruct (program s c) as [key k| | | | | |]; simpl in Hreq; try contradiction.
  destruct Hreq as (-> & Hhold & _).
  simpl in H. apply exec_cons_Some in H as (t' & H & ->).
  destruct (holding_exec _ _ Hhold _ _ H) as (pre & e & r & -> & Hc).
  exists pre, e, r. split; [reflexivity|]. split; [exact Hc|].
  simpl. rewrite count_app, (count_unlock_le_lock _ Hc). reflexivity.
Qed.

(** C3 (evaluation of the code).  After a successful create whose job
    closes [window] milliseconds after now, the expiry handed to the
    directory is [- window - 15000]: the closing time is subtracted from
    the clock rather than the clock from the closing time. *)
Theorem create_writes_negated_ttl
    (b : Bulk) (s : Settings) (msg : Msg) (jid : option string)
    (now window : Z) :
  let res := {| status := 200;
                body := {| job_id := jid; closing_at := Some (now + window) |} |} in
  exec (bulk b s msg Return)
       [RLock None; RGet (GetOk None); RPost (PostOk res); RNow now;
        RSet SetOk; RUnlock None]
  = Some [EvLock (lockKey b s msg) None;
          EvGet (jobKey b s msg);
          EvPost ("/bulk/" +:+ dataType msg) (headers s)
            {| items := mapperV2 (action msg) msg s; job := None |};
          EvNow;
          EvSet (join ":" [appId s; Some "jobs"; Some (dataType msg);
                           js_or (userId msg) (email msg)])
                jid (Some (- window - 15000));
          EvUnlock (lockKey b s msg);
          EvCallback None (Some res)].
Proof.
  destruct b; simpl; unfold expiration; simpl;
    replace (now - (now + window) - 15000) with (- window - 15000) by lia;
    reflexivity.
Qed.

(** C4. A bulk request whose lookup found nothing (and did not fail)
    goes straight to one create: the third call is the post without a
    job, and the whole run has one create and no append. *)
Theorem directory_miss_creates_once
    (b : Bulk) (s : Settings) (msg : Msg) (rs : list Reply) (t : list Event) :
  exec (bulk b s msg Return) (RLock None :: RGet (GetOk None) :: rs) = Some t ->
  exists tail,
    t = EvLock (lockKey b s msg) None
        :: EvGet (jobKey b s msg)
        :: EvPost ("/bulk/" +:+ dataType msg) (headers s)
             {| items := mapperV2 (action msg) msg s; job := None |}
        :: tail /\
    count is_create t = 1%nat /\
    count is_append t = O.
Proof.
  intros H. destruct msg as [a uid em gid tr].
  destruct b, a; simpl in H; run H;
    (eexists; split; [reflexivity|]); split; reflexivity.
Qed.

(** C5. When the create succeeded and the directory write that follows
    it fails, the run ends with the callback receiving no error and the
    create's response, and the trace is the one of the same run with a
    successful write. *)
Theorem directory_write_failure_is_absorbed
    (b : Bulk) (s : Settings) (msg : Msg) (pre : list Reply) (res : Response)
    (now : Z) (e : Err) (u : option Err) (t : list Event) :
  exec (bulk b s msg Return)
       (pre ++ [RPost (PostOk res); RNow now; RSet (SetFail e); RUnlock u])
    = Some t ->
  last t = Some (EvCallback None (Some res)) /\
  exec (bulk b s msg Return)
       (pre ++ [RPost (PostOk res); RNow now; RSet SetOk; RUnlock u])
    = Some t.
Proof.
  intros H.
  destruct b; run H; simpl; rewrite ?Heqb; split; reflexivity.
Qed.

(** C6. A bulk request whose lookup fails makes exactly these calls:
    lock, lookup, unlock of the same key, and then the callback with the
    lookup's error; no post is made. *)
Theorem directory_read_failure_unlocks_and_fails
    (b : Bulk) (s : Settings) (msg : Msg) (e : Err)
    (rs : list Reply) (t : list Event) :
  exec (bulk b s msg Return) (RLock None :: RGet (GetErr e) :: rs) = Some t ->
  t = [EvLock (lockKey b s msg) None; EvGet (jobKey b s msg);
       EvUnlock (lockKey b s msg); EvCallback (Some e) None]
  /\ count is_bulk_post t = O.
Proof.
  intros H. destruct b; run H; split; reflexivity.
Qed.

(** ** Lock keys *)

Lemma append_cons (a : ascii) (s1 s2 : string) :
  String a s1 +:+ s2 = String a (s1 +:+ s2).
Proof. reflexivity. Qed.

Lemma append_assoc (s1 s2 s3 : string) :
  (s1 +:+ s2) +:+ s3 = s1 +:+ (s2 +:+ s3).
Proof.
  induction s1 as [|a s1 IH]; [reflexivity|].
  rewrite !append_cons, IH. reflexivity.
Qed.

Lemma length_append (s1 s2 : string) :
  String.length (s1 +:+ s2) = (String.length s1 + String.length s2)%nat.
Proof.
  induction s1 as [|a s1 IH]; [reflexivity|].
  rewrite append_cons. simpl. rewrite IH. reflexivity.
Qed.

Lemma groups_key_differs (a x : string) :
  (a +:+ ":" +:+ "groups") +:+ ":" +:+ x <> a +:+ ":" +:+ x.
Proof.
  rewrite append_assoc. intros H.
  apply (inj (String.append a)) in H.
  apply (f_equal String.length) in H.
  rewrite !length_append in H. simpl in H. lia.
Qed.

(** C7. For one tenant and one resolved user id ([userId || email]),
    [identifyV2] and [trackV2] lock the same key, appId:id, and
    [groupV2] locks appId:groups:id, which is a different key. *)
Theorem identify_track_share_key_group_differs
    (s : Settings) (mi mt mg : Msg) (fi ft fg : Callback) (id : option string) :
  js_or (userId mi) (email mi) = id ->
  js_or (userId mt) (email mt) = id ->
  js_or (userId mg) (email mg) = id ->
  lock_key_of (identifyV2 s mi fi) = lock_key_of (trackV2 s mt ft) /\
  lock_key_of (trackV2 s mt ft)
    = Some (default "" (appId s) +:+ ":" +:+ default "" id) /\
  lock_key_of (groupV2 s mg fg)
    = Some (default "" (appId s) +:+ ":groups:" +:+ default "" id) /\
  lock_key_of (groupV2 s mg fg) <> lock_key_of (trackV2 s mt ft).
Proof.
  intros Hi Ht Hg. unfold identifyV2, trackV2, groupV2, lock_key_of, join.
  simpl. rewrite Hi, Ht, Hg.
  split; [reflexivity|]. split; [reflexivity|]. split.
  - rewrite append_assoc. reflexivity.
  - intros [= H]. exact (groups_key_differs _ _ H).
Qed.

(** ** Method selection *)

(** C10. [initialize] installs [identifyV1], [trackV1] and [groupV1]
    when [settings.isBulkAPIEnabled] is truthy and the V2 methods when
    it is falsy, and in no other case; and a run of [trackV1] is one
    post to /events followed by the callback with that post's outcome:
    no lock call, no directory call, no bulk job. *)
Theorem initialize_selects_v1_when_flag_truthy (s : Settings) :
  (truthy (isBulkAPIEnabled s) = true ->
     identify (initialize s) = identifyV1 s /\
     track (initialize s) = trackV1 s /\
     group (initialize s) = groupV1 s (identifyV1 s)) /\
  (truthy (isBulkAPIEnabled s) = false ->
     identify (initialize s) = identifyV2 s /\
     track (initialize s) = trackV2 s /\
     group (initialize s) = groupV2 s) /\
  (track (initialize s) = trackV1 s <-> truthy (isBulkAPIEnabled s) = true) /\
  (track (initialize s) = trackV2 s <-> truthy (isBulkAPIEnabled s) = false) /\
  (forall (msg : Msg) (rs : list Reply) (t : list Event),
     exec (trackV1 s msg Return) rs = Some t ->
     exists r,
       rs = [RPost r] /\
       t = [EvPost "/events" (headers s)
              {| items := mapperV1 ATrack msg s; job := None |};
            EvCallback (reply_err r) (reply_res r)] /\
       count is_lock t = O /\ count is_redis t = O /\
       count is_bulk_post t = O).
Proof.
  assert (Hne : trackV1 s <> trackV2 s).
  { intros H.
    pose (m := {| action := ATrack; userId := None; email := None;
                  groupId := None; json := VUndefined |}).
    apply (f_equal (fun f => f m Return)) in H. discriminate H. }
  unfold initialize.
  destruct (truthy (isBulkAPIEnabled s)); simpl;
    (split; [intros; try discriminate; auto|]);
    (split; [intros; try discriminate; auto|]).
  - split; [split; auto|]. split.
    + split; [intros H; exfalso; exact (Hne H) | discriminate].
    + intros msg rs t H. run H.
      eexists. repeat split; reflexivity.
  - split; [split; [intros H; exfalso; exact (Hne (eq_sym H)) | discriminate]|].
    split; [split; auto|].
    intros msg rs t H. run H.
    eexists. repeat split; reflexivity.
Qed.

(** ** Date keys and traits *)

Lemma toLowerCase_append (a b : string) :
  toLowerCase (a +:+ b) = toLowerCase a +:+ toLowerCase b.
Proof.
  induction a as [|c a IH]; [reflexivity|].
  rewrite append_cons. simpl. rewrite IH. reflexivity.
Qed.

Lemma toLowerCase_length (s : string) :
  String.length (toLowerCase s) = String.length s.
Proof. induction s as [|c s IH]; simpl; [reflexivity | rewrite IH; reflexivity]. Qed.

Lemma substring_all (s : string) : substring 0 (String.length s) s = s.
Proof. induction s as [|c s IH]; simpl; [reflexivity | rewrite IH; reflexivity]. Qed.

Lemma substring_append_r (a b : string) :
  substring (String.length a) (String.length b) (a +:+ b) = b.
Proof.
  induction a as [|c a IH]; [apply substring_all|].
  rewrite append_cons. simpl. exact IH.
Qed.

Lemma substring_append_l (a b : string) :
  substring 0 (String.length a) (a +:+ b) = a.
Proof.
  induction a as [|c a IH]; [destruct b; reflexivity|].
  rewrite append_cons. simpl. rewrite IH. reflexivity.
Qed.

Lemma substring_length_le (s : string) :
  forall n m, (String.length (substring n m s) <= m)%nat.
Proof.
  induction s as [|c s IH]; intros [|n] [|m]; simpl; try lia.
  - specialize (IH O m). lia.
  - apply IH.
  - apply IH.
Qed.

(** Any string that is long enough splits off a suffix of a given length. *)
Lemma split_suffix (n : nat) (s : string) :
  (n <= String.length s)%nat ->
  exists pre tl, s = pre +:+ tl /\ String.length tl = n.
Proof.
  induction s as [|c s IH]; simpl; intros Hn.
  - exists "", "". split; [reflexivity | simpl; lia].
  - destruct (decide (n <= String.length s)%nat) as [Hle|Hgt].
    + destruct (IH Hle) as (pre & tl & -> & Hl).
      exists (String c pre), tl. split; [reflexivity | exact Hl].
    + exists "", (String c s). split; [reflexivity | simpl; lia].
Qed.

(** On a key with a suffix as long as the one sought, [endswith]
    compares that suffix, lower-cased. *)
Lemma endswith_append (pre tl suf : string) :
  String.length tl = String.length suf ->
  endswith (pre +:+ tl) suf = String.eqb (toLowerCase tl) suf.
Proof.
  intros Hl. unfold endswith, substr, strlen.
  rewrite toLowerCase_append, length_append, !toLowerCase_length, <- Hl.
  replace (Z.of_nat (String.length pre + String.length tl)
           - Z.of_nat (String.length tl))
    with (Z.of_nat (String.length pre)) by lia.
  destruct (Z.ltb_spec (Z.of_nat (String.length pre)) 0) as [Hneg|_]; [lia|].
  rewrite Z.min_l by lia.
  replace (Z.to_nat (Z.of_nat (String.length pre + String.length tl)
                     - Z.of_nat (String.length pre)))
    with (String.length (toLowerCase tl))
    by (rewrite toLowerCase_length; lia).
  rewrite Nat2Z.id.
  rewrite <- (toLowerCase_length pre).
  rewrite substring_append_r. reflexivity.
Qed.

Lemma endswith_short (key suf : string) :
  (String.length key < String.length suf)%nat -> endswith key suf = false.
Proof.
  intros Hlt. unfold endswith, substr, strlen.
  apply String.eqb_neq. intros H.
  apply (f_equal String.length) in H.
  match type of H with
  | String.length (substring ?n ?m ?x) = _ =>
      pose proof (substring_length_le x n m) as Hle
  end.
  rewrite toLowerCase_length in *.
  destruct (Z.ltb_spec (Z.of_nat (String.length key)
                        - Z.of_nat (String.length suf)) 0); lia.
Qed.

(** The three cases of [dateKey]. *)
Lemma dateKey_underscore_at (pre tl : string) :
  toLowerCase tl = "_at" -> dateKey (pre +:+ tl) = pre +:+ tl.
Proof.
  intros Htl. unfold dateKey.
  rewrite endswith_append
    by (rewrite <- (toLowerCase_length tl), Htl; reflexivity).
  rewrite Htl. reflexivity.
Qed.

Lemma dateKey_space_at (pre tl : string) :
  toLowerCase tl = " at" -> dateKey (pre +:+ tl) = pre +:+ "_at".
Proof.
  intros Htl.
  assert (Hl : String.length tl = 3%nat)
    by (rewrite <- (toLowerCase_length tl), Htl; reflexivity).
  unfold dateKey.
  rewrite !endswith_append by (rewrite Hl; reflexivity).
  rewrite Htl. simpl.
  unfold substr, strlen. rewrite length_append, Hl. simpl.
  rewrite Z.min_l by lia.
  replace (Z.to_nat (Z.min (Z.max (Z.of_nat (String.length pre + 3) - 3) 0)
                           (Z.of_nat (String.length pre + 3) - 0)))
    with (String.length pre) by lia.
  rewrite substring_append_l. reflexivity.
Qed.

Lemma dateKey_other (key : string) :
  (forall pre tl, key = pre +:+ tl ->
                  toLowerCase tl <> "_at" /\ toLowerCase tl <> " at") ->
  dateKey key = key +:+ "_at".
Proof.
  intros Hno. unfold dateKey.
  destruct (decide (3 <= String.length key)%nat) as [Hge|Hlt].
  - destruct (split_suffix 3 key Hge) as (pre & tl & -> & Hl).
    destruct (Hno pre tl eq_refl) as [H1 H2].
    rewrite !endswith_append by (rewrite Hl; reflexivity).
    apply String.eqb_neq in H1, H2. rewrite H1, H2. reflexivity.
  - rewrite !endswith_short by (simpl; lia). reflexivity.
Qed.

Section TraitsFacts.

Variable isostring : string -> bool.
Variable time : Value -> option Z.

Lemma fold_entries_lookup_other (l : list (string * Value))
    (m : gmap string Value) (k : string) :
  k ∉ (fst ∘ format_entry isostring time) <$> l ->
  fold_left (write_entry isostring time) l m !! k = m !! k.
Proof.
  revert m. induction l as [|kv l IH]; intros m Hk; [reflexivity|].
  rewrite fmap_cons, not_elem_of_cons in Hk. destruct Hk as [Hne Hk].
  simpl. rewrite (IH _ Hk). simpl in Hne. unfold write_entry.
  destruct (format_entry isostring time kv) as [k' v'].
  destruct (String.eqb k' "__proto__"); [reflexivity|].
  apply lookup_insert_ne. simpl in Hne. congruence.
Qed.

Lemma fold_entries_no_proto (l : list (string * Value))
    (m : gmap string Value) :
  m !! "__proto__" = None ->
  fold_left (write_entry isostring time) l m !! "__proto__" = None.
Proof.
  revert m. induction l as [|kv l IH]; intros m Hm; [exact Hm|].
  simpl. apply IH. unfold write_entry.
  destruct (format_entry isostring time kv) as [k' v'].
  destruct (String.eqb k' "__proto__") eqn:E; [exact Hm|].
  apply String.eqb_neq in E. rewrite lookup_insert_ne by exact E. exact Hm.
Qed.

(** C9, as amended.  [formatTraits] writes each property in turn:
    a date (an ISO string or a Date) under [dateKey key] with the number
    [time val], an integer timestamp or NaN; anything else under its own
    key unchanged; [dateKey] leaves a key ending in "_at" (in any case)
    as it is, replaces an ending " at" (in any case) by "_at", and
    appends "_at" to any other key.  A property is found in the result
    as written unless a later property is written under the same key or
    its key is "__proto__", which is never a key of the result; and the
    result has no other keys. *)
Theorem formatTraits_last_write_wins (traits : list (string * Value)) :
  (forall key val, date_like isostring val = true ->
     format_entry isostring time (key, val)
     = (dateKey key, number (time val))) /\
  (forall key val, date_like isostring val = false ->
     format_entry isostring time (key, val) = (key, val)) /\
  (forall pre tl, toLowerCase tl = "_at" -> dateKey (pre +:+ tl) = pre +:+ tl) /\
  (forall pre tl, toLowerCase tl = " at" -> dateKey (pre +:+ tl) = pre +:+ "_at") /\
  (forall key,
     (forall pre tl, key = pre +:+ tl ->
                     toLowerCase tl <> "_at" /\ toLowerCase tl <> " at") ->
     dateKey key = key +:+ "_at") /\
  (forall l1 kv l2,
     traits = l1 ++ kv :: l2 ->
     fst (format_entry isostring time kv) <> "__proto__" ->
     fst (format_entry isostring time kv)
       ∉ (fst ∘ format_entry isostring time) <$> l2 ->
     formatTraits isostring time traits !! fst (format_entry isostring time kv)
       = Some (snd (format_entry isostring time kv))) /\
  formatTraits isostring time traits !! "__proto__" = None /\
  (forall k,
     k ∉ (fst ∘ format_entry isostring time) <$> traits ->
     formatTraits isostring time traits !! k = None).
Proof.
  split; [intros key val H; unfold format_entry; rewrite H; reflexivity|].
  split; [intros key val H; unfold format_entry; rewrite H; reflexivity|].
  split; [exact dateKey_underscore_at|].
  split; [exact dateKey_space_at|].
  split; [exact dateKey_other|].
  split; [|split].
  - intros l1 kv l2 -> Hproto Hlast. unfold formatTraits.
    rewrite fold_left_app. simpl.
    rewrite (fold_entries_lookup_other _ _ _ Hlast). unfold write_entry.
    destruct (format_entry isostring time kv) as [k v]. simpl in *.
    apply String.eqb_neq in Hproto. rewrite Hproto.
    apply lookup_insert_eq.
  - apply fold_entries_no_proto, lookup_empty.
  - intros k Hk. unfold formatTraits.
    rewrite (fold_entries_lookup_other _ _ _ Hk). apply lookup_empty.
Qed.

End TraitsFacts.

(** ** Requests on one lock key do not interleave *)

Lemma elem_snoc_other (l : list (nat * Event)) (x y : nat) (ev e : Event) :
  x <> y -> (y, e) ∈ l ++ [(x, ev)] <-> (y, e) ∈ l.
Proof.
  intros Hne. rewrite elem_of_app, list_elem_of_singleton.
  split; [intros [H|H]; [exact H | congruence] | auto].
Qed.

Lemma silent_snoc_other (l : list (nat * Event)) (x y : nat) (ev : Event) :
  x <> y -> silent y l -> silent y (l ++ [(x, ev)]).
Proof. intros Hne Hs e. rewrite elem_snoc_other by exact Hne. apply Hs. Qed.

Lemma snoc_split {A : Type} (l l1 l2 : list A) (a b : A) :
  l ++ [a] = l1 ++ b :: l2 ->
  (l2 = [] /\ b = a /\ l1 = l) \/
  (exists l2', l2 = l2' ++ [a] /\ l = l1 ++ b :: l2').
Proof.
  destruct l2 as [|z l2 _] using rev_ind; intros H.
  - left. apply app_inj_tail in H as [-> ->]. auto.
  - right. exists l2.
    change (l1 ++ b :: l2 ++ [z]) with (l1 ++ (b :: l2) ++ [z]) in H.
    rewrite app_assoc in H. apply app_inj_tail in H as [-> ->]. auto.
Qed.

Lemma holding_not_request (key key' : string) (p : Prog) :
  holding key p -> request key' p -> False.
Proof. destruct p; simpl; tauto. Qed.

Lemma holding_not_finished (key : string) (p : Prog) :
  holding key p -> finished p -> False.
Proof. destruct p; simpl; tauto. Qed.

Lemma phase_other (c : Config) (x y : nat) (p' : Prog) (h' : gset string)
    (ev : Event) (key : string) (p : Prog) :
  x <> y ->
  phase c y key p ->
  (holding key p -> key ∉ expired c -> key ∈ held c -> key ∈ h') ->
  phase (advance c x p' h' ev) y key p.
Proof.
  intros Hne [Hreq Hsil|Hhold Hin Hacq Hrel|Hfin Himp] Hheld.
  - apply ph_waiting; [exact Hreq|]. simpl. apply silent_snoc_other; assumption.
  - apply ph_holding; simpl; [exact Hhold | auto | |].
    + apply elem_snoc_other; assumption.
    + unfold released. rewrite elem_snoc_other by exact Hne. exact Hrel.
  - apply ph_finished; [exact Hfin|]. simpl. unfold acquired, released.
    rewrite !elem_snoc_other by exact Hne. exact Himp.
Qed.

(** A call that is not a grant keeps the log ordered, as long as the
    caller has not released its key. *)
Lemma ordered_snoc_call (keys : list string) (dead : gset string)
    (l : list (nat * Event)) (x : nat) (ev : Event) :
  ordered keys dead l ->
  (forall key, keys !! x = Some key -> ~ released x key l) ->
  (forall key, ev <> EvLock key None) ->
  ordered keys dead (l ++ [(x, ev)]).
Proof.
  intros Hord Hnr Hev j key l1 l2 Hlive Hj Hsplit.
  apply snoc_split in Hsplit as [(_ & Heq & _)|(l2' & -> & ->)].
  - exfalso. injection Heq as _ Heq. exact (Hev key (eq_sym Heq)).
  - destruct (Hord j key l1 l2' Hlive Hj eq_refl) as [Hsil Hrest].
    split; [exact Hsil|].
    intros i Hij Hi Hacq. destruct (Hrest i Hij Hi Hacq) as [Hrel Hs].
    split; [exact Hrel|].
    apply silent_snoc_other; [|exact Hs].
    intros ->. apply (Hnr key Hi).
    unfold released. rewrite elem_of_app. left. exact Hrel.
Qed.

(** A grant keeps the log ordered when the new holder was silent and,
    unless the key has expired, every earlier holder has released it. *)
Lemma ordered_snoc_grant (keys : list string) (dead : gset string)
    (l : list (nat * Event)) (x : nat) (key : string) :
  ordered keys dead l ->
  keys !! x = Some key ->
  silent x l ->
  (key ∉ dead ->
   forall i, i <> x -> keys !! i = Some key -> acquired i key l ->
             released i key l) ->
  ordered keys dead (l ++ [(x, EvLock key None)]).
Proof.
  intros Hord Hx Hsil Hprev j key' l1 l2 Hlive Hj Hsplit.
  apply snoc_split in Hsplit as [(-> & Heq & ->)|(l2' & -> & ->)].
  - injection Heq as -> ->.
    split; [exact Hsil|].
    intros i Hij Hi Hacq. split; [exact (Hprev Hlive i Hij Hi Hacq)|].
    intros e He. apply elem_of_nil in He. exact He.
  - destruct (Hord j key' l1 l2' Hlive Hj eq_refl) as [Hsj Hrest].
    split; [exact Hsj|].
    intros i Hij Hi Hacq. destruct (Hrest i Hij Hi Hacq) as [Hrel Hs].
    split; [exact Hrel|].
    apply silent_snoc_other; [|exact Hs].
    intros ->. apply (Hsil (EvLock key' None)).
    rewrite elem_of_app. left. exact Hacq.
Qed.

Section Exclusion.

Variable keys : list string.

Lemma inv_key (c : Config) (x : nat) (p : Prog) :
  Inv keys c -> pool c !! x = Some p ->
  exists key, keys !! x = Some key /\ phase c x key p.
Proof.
  intros HI Hp.
  destruct (lookup_lt_is_Some_2 keys x) as [key Hk].
  { rewrite <- (inv_length _ _ HI). apply lookup_lt_is_Some_1. eauto. }
  exists key. split; [exact Hk | exact (inv_phase _ _ HI _ _ _ Hk Hp)].
Qed.

Lemma lookup_advance (c : Config) (x y : nat) (p' q : Prog) (h' : gset string)
    (ev : Event) (p : Prog) :
  pool c !! x = Some p ->
  pool (advance c x p' h' ev) !! y = Some q ->
  (y = x /\ q = p') \/ (y <> x /\ pool c !! y = Some q).
Proof.
  intros Hp. simpl. destruct (decide (x = y)) as [->|Hne].
  - rewrite list_lookup_insert_eq
      by (apply lookup_lt_is_Some_1; eauto).
    intros [= <-]. auto.
  - rewrite list_lookup_insert_ne by exact Hne. auto.
Qed.

(** The lock is granted to a waiting request. *)
Lemma inv_grant (c : Config) (x : nat) (key : string) (k : option Err -> Prog) :
  Inv keys c ->
  pool c !! x = Some (Lock key k) ->
  key ∉ held c ->
  Inv keys (advance c x (k None) ({[key]} ∪ held c) (EvLock key None)).
Proof.
  intros HI Hp Hfree.
  destruct (inv_key _ _ _ HI Hp) as (key' & Hk & Hst).
  destruct Hst as [Hreq Hsil|Hhold _ _ _|Hfin _]; [|destruct Hhold|destruct Hfin].
  destruct Hreq as (-> & Hhold & _).
  assert (Hothers : key' ∉ expired c ->
            forall i pi, i <> x -> keys !! i = Some key' ->
            pool c !! i = Some pi -> ~ holding key' pi).
  { intros Hlive i pi Hi Hki Hpi Hh.
    destruct (inv_phase _ _ HI _ _ _ Hki Hpi) as [Hr _|_ Hin _ _|Hf _].
    - exact (holding_not_request _ _ _ Hh Hr).
    - exact (Hfree (Hin Hlive)).
    - exact (holding_not_finished _ _ Hh Hf). }
  split.
  - simpl. rewrite length_insert. exact (inv_length _ _ HI).
  - intros i keyi p Hki Hpi.
    destruct (lookup_advance _ _ _ _ _ _ _ _ Hp Hpi) as [[-> ->]|[Hne Hpi']].
    + rewrite Hk in Hki. injection Hki as <-.
      apply ph_holding; simpl; [exact Hhold | intros _; set_solver | |].
      * unfold acquired. rewrite elem_of_app, list_elem_of_singleton. auto.
      * unfold released. rewrite elem_of_app, list_elem_of_singleton.
        intros [H|H]; [exact (Hsil _ H) | discriminate].
    + apply phase_other; [congruence | exact (inv_phase _ _ HI _ _ _ Hki Hpi') |].
      intros _ _ Hin. set_solver.
  - intros i j keyi pi pj Hlive Hij Hki Hkj Hpi Hpj Hhi Hhj. simpl in Hlive.
    destruct (lookup_advance _ _ _ _ _ _ _ _ Hp Hpi) as [[-> ->]|[Hni Hpi']];
      destruct (lookup_advance _ _ _ _ _ _ _ _ Hp Hpj) as [[-> ->]|[Hnj Hpj']].
    + congruence.
    + rewrite Hk in Hki. injection Hki as <-.
      exact (Hothers Hlive j pj Hnj Hkj Hpj' Hhj).
    + rewrite Hk in Hkj. injection Hkj as <-.
      exact (Hothers Hlive i pi Hni Hki Hpi' Hhi).
    + exact (inv_exclusive _ _ HI i j keyi pi pj Hlive Hij Hki Hkj Hpi' Hpj'
               Hhi Hhj).
  - simpl. apply ordered_snoc_grant;
      [exact (inv_ordered _ _ HI) | exact Hk | exact Hsil |].
    intros Hlive i Hi Hki Hacq.
    destruct (lookup_lt_is_Some_2 (pool c) i) as [pi Hpi].
    { rewrite (inv_length _ _ HI). apply lookup_lt_is_Some_1. eauto. }
    destruct (inv_phase _ _ HI _ _ _ Hki Hpi) as [_ Hs|_ Hin _ _|_ Himp].
    + destruct (Hs _ Hacq).
    + destruct (Hfree (Hin Hlive)).
    + exact (Himp Hacq).
Qed.

(** The lock call fails: the request ends without having held the key. *)
Lemma inv_lock_failed (c : Config) (x : nat) (key : string)
    (k : option Err -> Prog) (e : Err) :
  Inv keys c ->
  pool c !! x = Some (Lock key k) ->
  Inv keys (advance c x (k (Some e)) (held c) (EvLock key (Some e))).
Proof.
  intros HI Hp.
  destruct (inv_key _ _ _ HI Hp) as (key' & Hk & Hst).
  destruct Hst as [Hreq Hsil|Hhold _ _ _|Hfin _]; [|destruct Hhold|destruct Hfin].
  destruct Hreq as (-> & _ & Hfail).
  split.
  - simpl. rewrite length_insert. exact (inv_length _ _ HI).
  - intros i keyi p Hki Hpi.
    destruct (lookup_advance _ _ _ _ _ _ _ _ Hp Hpi) as [[-> ->]|[Hne Hpi']].
    + apply ph_finished; [apply Hfail|]. simpl. unfold acquired.
      rewrite elem_of_app, list_elem_of_singleton.
      intros [H|H]; [destruct (Hsil _ H) | discriminate].
    + apply phase_other;
        [congruence | exact (inv_phase _ _ HI _ _ _ Hki Hpi') | auto].
  - intros i j keyi pi pj Hlive Hij Hki Hkj Hpi Hpj Hhi Hhj.
    destruct (lookup_advance _ _ _ _ _ _ _ _ Hp Hpi) as [[-> ->]|[Hni Hpi']];
      destruct (lookup_advance _ _ _ _ _ _ _ _ Hp Hpj) as [[-> ->]|[Hnj Hpj']].
    + congruence.
    + exact (holding_not_finished _ _ Hhi (Hfail e)).
    + exact (holding_not_finished _ _ Hhj (Hfail e)).
    + exact (inv_exclusive _ _ HI i j keyi pi pj Hlive Hij Hki Hkj Hpi' Hpj'
               Hhi Hhj).
  - simpl. apply ordered_snoc_call; [exact (inv_ordered _ _ HI) | |].
    + intros key0 _ Hrel. exact (Hsil _ Hrel).
    + intros key0 [=].
Qed.

(** The holder releases: it is finished, and the others keep their keys. *)
Lemma inv_release (c : Config) (x : nat) (key : string)
    (k : option Err -> Prog) (u : option Err) (h' : gset string) :
  Inv keys c ->
  pool c !! x = Some (Unlock key k) ->
  (forall key', key' <> key -> key' ∈ held c -> key' ∈ h') ->
  Inv keys (advance c x (k u) h' (EvUnlock key)).
Proof.
  intros HI Hp Hkeep.
  destruct (inv_key _ _ _ HI Hp) as (key' & Hk & Hst).
  destruct Hst as [Hreq _|Hhold Hin Hacq Hnrel|Hfin _];
    [destruct Hreq| |destruct Hfin].
  pose proof Hhold as Hhold'. destruct Hhold' as [-> Hdone].
  split.
  - simpl. rewrite length_insert. exact (inv_length _ _ HI).
  - intros i keyi p Hki Hpi.
    destruct (lookup_advance _ _ _ _ _ _ _ _ Hp Hpi) as [[-> ->]|[Hne Hpi']].
    + rewrite Hk in Hki. injection Hki as <-.
      apply ph_finished; [apply Hdone|]. intros _. simpl. unfold released.
      rewrite elem_of_app, list_elem_of_singleton. auto.
    + apply phase_other;
        [congruence | exact (inv_phase _ _ HI _ _ _ Hki Hpi') |].
      intros Hhi Hlive Hini. apply Hkeep; [|exact Hini].
      intros ->.
      exact (inv_exclusive _ _ HI i x key' p _ Hlive Hne Hki Hk Hpi' Hp
               Hhi Hhold).
  - intros i j keyi pi pj Hlive Hij Hki Hkj Hpi Hpj Hhi Hhj.
    destruct (lookup_advance _ _ _ _ _ _ _ _ Hp Hpi) as [[-> ->]|[Hni Hpi']];
      destruct (lookup_advance _ _ _ _ _ _ _ _ Hp Hpj) as [[-> ->]|[Hnj Hpj']].
    + congruence.
    + exact (holding_not_finished _ _ Hhi (Hdone u)).
    + exact (holding_not_finished _ _ Hhj (Hdone u)).
    + exact (inv_exclusive _ _ HI i j keyi pi pj Hlive Hij Hki Hkj Hpi' Hpj'
               Hhi Hhj).
  - simpl. apply ordered_snoc_call; [exact (inv_ordered _ _ HI) | |].
    + intros key0 Hk0. rewrite Hk in Hk0. injection Hk0 as <-. exact Hnrel.
    + intros key0 [=].
Qed.

(** The holder makes a directory, upstream or clock call. *)
Lemma inv_call (c : Config) (x : nat) (p p' : Prog) (ev : Event) :
  Inv keys c ->
  pool c !! x = Some p ->
  ~ request (default "" (keys !! x)) p -> ~ finished p ->
  (forall key, holding key p -> holding key p') ->
  is_lock ev = false ->
  Inv keys (advance c x p' (held c) ev).
Proof.
  intros HI Hp Hnreq Hnfin Hnext Hev.
  destruct (inv_key _ _ _ HI Hp) as (key' & Hk & Hst).
  rewrite Hk in Hnreq. simpl in Hnreq.
  destruct Hst as [Hreq _|Hhold Hin Hacq Hnrel|Hfin _];
    [destruct (Hnreq Hreq)| |destruct (Hnfin Hfin)].
  split.
  - simpl. rewrite length_insert. exact (inv_length _ _ HI).
  - intros i keyi q Hki Hpi.
    destruct (lookup_advance _ _ _ _ _ _ _ _ Hp Hpi) as [[-> ->]|[Hne Hpi']].
    + rewrite Hk in Hki. injection Hki as <-.
      apply ph_holding; simpl; [exact (Hnext _ Hhold) | exact Hin | |].
      * unfold acquired. rewrite elem_of_app. auto.
      * unfold released. rewrite elem_of_app, list_elem_of_singleton.
        intros [H|[= H]]; [exact (Hnrel H)|]. subst ev. discriminate Hev.
    + apply phase_other;
        [congruence | exact (inv_phase _ _ HI _ _ _ Hki Hpi') | auto].
  - assert (Hback : forall key, holding key p' -> keys !! x = Some key ->
                                holding key p).
    { intros key Hh Hkx. rewrite Hk in Hkx. injection Hkx as <-. exact Hhold. }
    intros i j keyi pi pj Hlive Hij Hki Hkj Hpi Hpj Hhi Hhj.
    destruct (lookup_advance _ _ _ _ _ _ _ _ Hp Hpi) as [[-> ->]|[Hni Hpi']];
      destruct (lookup_advance _ _ _ _ _ _ _ _ Hp Hpj) as [[-> ->]|[Hnj Hpj']].
    + congruence.
    + exact (inv_exclusive _ _ HI x j keyi p pj Hlive Hij Hki Hkj Hp Hpj'
               (Hback _ Hhi Hki) Hhj).
    + exact (inv_exclusive _ _ HI i x keyi pi p Hlive Hij Hki Hkj Hpi' Hp
               Hhi (Hback _ Hhj Hkj)).
    + exact (inv_exclusive _ _ HI i j keyi pi pj Hlive Hij Hki Hkj Hpi' Hpj'
               Hhi Hhj).
  - simpl. apply ordered_snoc_call; [exact (inv_ordered _ _ HI) | |].
    + intros key0 Hk0. rewrite Hk in Hk0. injection Hk0 as <-. exact Hnrel.
    + intros key0 ->. discriminate Hev.
Qed.

(** A lock expires: what was known of the keys that have not expired
    stays known. *)
Lemma inv_expire (c : Config) (key : string) :
  Inv keys c -> Inv keys (expire c key).
Proof.
  intros HI. split.
  - exact (inv_length _ _ HI).
  - intros i keyi p Hki Hpi.
    destruct (inv_phase _ _ HI _ _ _ Hki Hpi) as [Hr Hs|Hh Hin Ha Hn|Hf Himp].
    + apply ph_waiting; assumption.
    + apply ph_holding; try assumption. simpl. intros Hlive.
      apply not_elem_of_union in Hlive as [Hne Hlive].
      apply elem_of_difference. split; [exact (Hin Hlive) | exact Hne].
    + apply ph_finished; assumption.
  - intros i j keyi pi pj Hlive. simpl in Hlive.
    apply not_elem_of_union in Hlive as [_ Hlive].
    exact (inv_exclusive _ _ HI i j keyi pi pj Hlive).
  - intros j keyj l1 l2 Hlive. simpl in Hlive.
    apply not_elem_of_union in Hlive as [_ Hlive].
    exact (inv_ordered _ _ HI j keyj l1 l2 Hlive).
Qed.

Lemma inv_step (c c' : Config) : Inv keys c -> step c c' -> Inv keys c'.
Proof.
  intros HI Hstep. destruct Hstep.
  - apply inv_grant; assumption.
  - apply inv_lock_failed; assumption.
  - eapply inv_release; [exact HI | eassumption |]. set_solver.
  - eapply inv_release; [exact HI | eassumption |]. auto.
  - eapply inv_call; [exact HI | eassumption | simpl; tauto | simpl; tauto
                     | intros key0 Hh; apply Hh | reflexivity].
  - eapply inv_call; [exact HI | eassumption | simpl; tauto | simpl; tauto
                     | intros key0 Hh; apply Hh | reflexivity].
  - eapply inv_call; [exact HI | eassumption | simpl; tauto | simpl; tauto
                     | intros key0 Hh; apply Hh | reflexivity].
  - eapply inv_call; [exact HI | eassumption | simpl; tauto | simpl; tauto
                     | intros key0 Hh; apply Hh | reflexivity].
  - apply inv_expire. exact HI.
Qed.

Lemma inv_start (ps : list Prog) :
  Forall2 request keys ps -> Inv keys (start ps).
Proof.
  intros Hall. split.
  - simpl. symmetry. exact (Forall2_length _ _ _ Hall).
  - intros i key p Hk Hp. apply ph_waiting.
    + exact (Forall2_lookup_lr _ _ _ _ _ _ Hall Hk Hp).
    + intros ev H. apply elem_of_nil in H. exact H.
  - intros i j key pi pj _ _ Hki _ Hpi _ Hhi _.
    exact (holding_not_request _ _ _ Hhi
             (Forall2_lookup_lr _ _ _ _ _ _ Hall Hki Hpi)).
  - intros j key l1 l2 _ _ H. destruct l1; discriminate H.
Qed.

Lemma inv_reachable (ps : list Prog) (c : Config) :
  Forall2 request keys ps -> rtc step (start ps) c -> Inv keys c.
Proof.
  intros Hall. revert c. apply rtc_ind_r.
  - apply inv_start. exact Hall.
  - intros c c' _ Hstep HI. exact (inv_step _ _ HI Hstep).
Qed.

End Exclusion.


(** * Further properties of the code *)

(** ** Runs of the coordinator *)

(** X1. When the lock is refused, an identify, track or group call does
    nothing but report it: the run is the lock call and the callback
    with the lock's error; no directory call, no post, no unlock. *)
Theorem lock_refused_goes_straight_to_callback
    (s : Settings) (c : Call) (e : Err) (rs : list Reply) (t : list Event) :
  exec (program s c) (RLock (Some e) :: rs) = Some t ->
  rs = [] /\
  t = [EvLock (call_key s c) (Some e); EvCallback (Some e) None].
Proof.
  intros H. destruct c as [m|m|m]; run H; split; reflexivity.
Qed.

(** X2. When the directory has a job id and the append succeeds, the
    run is lock, lookup, append, unlock, callback with the append's
    response: no create is posted and the directory is not written. *)
Theorem append_success_leaves_directory_alone
    (b : Bulk) (s : Settings) (msg : Msg) (j : string) (res : Response)
    (rs : list Reply) (t : list Event) :
  str_truthy j = true ->
  exec (bulk b s msg Return)
       (RLock None :: RGet (GetOk (Some j)) :: RPost (PostOk res) :: rs)
    = Some t ->
  (exists u, rs = [RUnlock u]) /\
  t = [EvLock (lockKey b s msg) None;
       EvGet (jobKey b s msg);
       EvPost ("/bulk/" +:+ dataType msg) (headers s)
         {| items := mapperV2 (action msg) msg s; job := Some j |};
       EvUnlock (lockKey b s msg);
       EvCallback None (Some res)].
Proof.
  intros Hj H.
  destruct b; simpl in H; rewrite Hj in H; run H; split; eauto.
Qed.

(** X3. A complete bulk run whose last post failed and was followed at
    once by the unlock ends with the callback receiving that post's
    error and response; the failed post is a create, and the directory
    is not written. *)
Theorem create_failure_is_reported
    (b : Bulk) (s : Settings) (msg : Msg) (pre : list Reply) (e : Err)
    (res : option Response) (u : option Err) (t : list Event) :
  exec (bulk b s msg Return) (pre ++ [RPost (PostErr e res); RUnlock u])
    = Some t ->
  last t = Some (EvCallback (Some e) res) /\
  count is_create t = 1%nat /\
  count is_set t = O.
Proof.
  intros H. destruct msg as [a uid em gid js].
  destruct b, a; run H; repeat split; reflexivity.
Qed.

(** X4. For a track message handled by [trackV2], and for a group or
    identify message handled by [groupV2], the directory key that
    [createNewJob] writes is the key that was looked up: every directory
    call of a complete run is on the request's job key. *)
Theorem directory_calls_use_one_key
    (b : Bulk) (s : Settings) (msg : Msg) (rs : list Reply) (t : list Event) :
  dataType msg = match b with BTrack => "events" | BGroup => "users" end ->
  exec (bulk b s msg Return) rs = Some t ->
  (forall k, EvGet k ∈ t -> k = jobKey b s msg) /\
  (forall k v px, EvSet k v px ∈ t -> k = jobKey b s msg).
Proof.
  intros Hdt H. destruct msg as [a uid em gid js].
  destruct b, a; try discriminate Hdt; run H;
    (split; [intros k Hin | intros k v px Hin]);
    repeat (apply elem_of_cons in Hin as [Hin|Hin];
            [try discriminate Hin; try (injection Hin as ->); try reflexivity|]);
    try (apply elem_of_nil in Hin; contradiction).
Qed.

(** X5. A complete bulk run with the lock granted looks the job up
    once, posts at most one append and at most one create (at most two
    posts in all), and writes the directory at most once. *)
Theorem bulk_run_is_bounded
    (b : Bulk) (s : Settings) (msg : Msg) (rs : list Reply) (t : list Event) :
  exec (bulk b s msg Return) (RLock None :: rs) = Some t ->
  count is_get t = 1%nat /\
  (count is_append t <= 1)%nat /\
  (count is_create t <= 1)%nat /\
  (count is_bulk_post t <= 2)%nat /\
  (count is_set t <= 1)%nat.
Proof.
  intros H. destruct msg as [a uid em gid js].
  destruct b, a; run H; simpl; repeat split; lia.
Qed.

(** X6. In a complete bulk run the directory is written exactly when a
    create was posted and the caller is given no error. *)
Theorem directory_written_iff_create_succeeded
    (b : Bulk) (s : Settings) (msg : Msg) (rs : list Reply) (t : list Event) :
  exec (bulk b s msg Return) rs = Some t ->
  count is_set t = 1%nat <->
  count is_create t = 1%nat /\ exists res, last t = Some (EvCallback None res).
Proof.
  intros H. destruct msg as [a uid em gid js].
  destruct b, a; run H; simpl;
    (split; [intros Hs; try discriminate Hs; split; eauto
            | intros [Hc [? Hl]]; try discriminate Hc; try discriminate Hl;
              reflexivity]).
Qed.

(** X7. After a successful create the directory write carries the
    response's job id and [Date.now() - closing_at - 15000] as expiry.
    The expiry is NaN exactly when the response has no [closing_at], and
    positive exactly when the job closed more than 15 seconds before
    now. *)
Theorem create_success_writes_id_and_expiry
    (b : Bulk) (s : Settings) (msg : Msg) (pre : list Reply) (res : Response)
    (now : Z) (r : SetReply) (u : option Err) (t : list Event) :
  exec (bulk b s msg Return)
       (pre ++ [RPost (PostOk res); RNow now; RSet r; RUnlock u]) = Some t ->
  EvSet (join ":" [appId s; Some "jobs"; Some (dataType msg);
                   js_or (userId msg) (email msg)])
        (job_id (body res)) (expiration now (body res)) ∈ t /\
  (expiration now (body res) = None <-> closing_at (body res) = None) /\
  (forall px, expiration now (body res) = Some px ->
     (0 < px <-> exists c, closing_at (body res) = Some c /\ c + 15000 < now)).
Proof.
  intros H. split; [|split].
  - destruct b; run H;
      repeat first [apply list_elem_of_here | apply list_elem_of_further].
  - unfold expiration. destruct (closing_at (body res)); split; congruence.
  - unfold expiration. intros px Hpx.
    destruct (closing_at (body res)) as [c|]; [|discriminate Hpx].
    injection Hpx as <-. split.
    + intros Hpos. exists c. split; [reflexivity | lia].
    + intros (c' & [= <-] & Hlt). lia.
Qed.

(** X8. An identify whose lock is granted posts to /users once,
    releases the lock, and hands the post's outcome, error or not, to
    the caller unchanged. *)
Theorem identify_passes_outcome_after_unlock
    (s : Settings) (m : Msg) (rs : list Reply) (t : list Event) :
  exec (identifyV2 s m Return) (RLock None :: rs) = Some t ->
  exists r u,
    rs = [RPost r; RUnlock u] /\
    t = [EvLock (join ":" [appId s; js_or (userId m) (email m)]) None;
         EvPost "/users" (headers s)
           {| items := mapperV2 AIdentify m s; job := None |};
         EvUnlock (join ":" [appId s; js_or (userId m) (email m)]);
         EvCallback (reply_err r) (reply_res r)].
Proof.
  intros H. run H; eexists _, _; split; reflexivity.
Qed.

(** X9. Every post of a bulk run, the append and the create that may
    follow it alike, goes to the endpoint of the message's data type
    with the same headers and the same mapped payload: the fallback
    create re-sends what the failed append carried. *)
Theorem bulk_posts_carry_same_payload
    (b : Bulk) (s : Settings) (msg : Msg) (rs : list Reply) (t : list Event) :
  exec (bulk b s msg Return) rs = Some t ->
  forall ep h d, EvPost ep h d ∈ t ->
    ep = "/bulk/" +:+ dataType msg /\
    h = headers s /\
    items d = mapperV2 (action msg) msg s.
Proof.
  intros H ep h d Hin.
  destruct b; run H;
    repeat (apply elem_of_cons in Hin as [Hin|Hin];
            [try discriminate Hin;
             try (injection Hin as -> -> ->; repeat split; reflexivity)|]);
    try (apply elem_of_nil in Hin; contradiction).
Qed.

(** ** The V1 group call *)

Lemma groupV1_passes_group_json (s : Settings)
    (self_identify : Msg -> Callback -> Prog) (g : Msg) (fn : Callback) :
  groupV1 s self_identify g fn
  = Post "/companies" (headers s)
      {| items := mapperV1 AGroup g s; job := None |}
      (fun r =>
         match reply_err r with
         | Some e => fn (Some e) None
         | None => self_identify (Identify_new (group_json g)) fn
         end).
Proof. reflexivity. Qed.

(** X10. With the V1 methods installed, a group call posts to
    /companies before any lock is taken.  When that post fails the
    caller gets its error alone (the response is dropped) and nothing
    else is called; when it succeeds the rest of the run is the V1
    identify of the message built from the group's json. *)
Theorem group_v1_is_companies_then_identify
    (s : Settings) (g : Msg) (r : PostReply) (rs : list Reply) (t : list Event) :
  truthy (isBulkAPIEnabled s) = true ->
  exec (group (initialize s) g Return) (RPost r :: rs) = Some t ->
  exists t',
    t = EvPost "/companies" (headers s)
          {| items := mapperV1 AGroup g s; job := None |} :: t' /\
    (forall e, reply_err r = Some e ->
               rs = [] /\ t' = [EvCallback (Some e) None]) /\
    (reply_err r = None ->
       exec (identifyV1 s (Identify_new (group_json g)) Return) rs = Some t').
Proof.
  intros Hflag H. unfold initialize in H. rewrite Hflag in H.
  simpl in H. apply exec_cons_Some in H as (t' & H & ->).
  exists t'. split; [reflexivity|].
  destruct r as [res|e res]; simpl in *.
  - split; [intros e [=] | intros _; exact H].
  - split; [|intros [=]].
    intros e' [= <-]. destruct rs; [|discriminate H].
    injection H as <-. split; reflexivity.
Qed.

(** ** Credentials and keys *)

(** X11. Settings that pass the credentials check yield a well-formed
    Authorization header: the bearer token when there is a non-empty
    oauth token (whatever [apiKey] and [appId] are), and otherwise Basic
    over the actual, non-empty [appId] and [apiKey]. *)
Theorem valid_credentials_give_authorization (s : Settings) :
  ensure_credentials s = None ->
  (exists tok, oauth s = Some (Some tok) /\ tok <> "" /\
               Authorization (headers s) = "Bearer " +:+ tok) \/
  (oauthTokenExists (oauth s) = false /\
   exists a k, appId s = Some a /\ apiKey s = Some k /\ a <> "" /\ k <> "" /\
               Authorization (headers s) = "Basic " +:+ base64 (a +:+ ":" +:+ k)).
Proof.
  unfold ensure_credentials, headers.
  destruct (oauthTokenExists (oauth s)) eqn:Htok.
  - intros _. left. unfold oauthTokenExists in Htok.
    destruct (oauth s) as [[tok|]|]; try discriminate Htok.
    exists tok. split; [reflexivity|]. split; [|reflexivity].
    intros ->. discriminate Htok.
  - destruct (apiKey s) as [k|]; simpl; [|discriminate].
    destruct (appId s) as [a|]; simpl;
      [|destruct (str_truthy k); discriminate].
    destruct (str_truthy k) eqn:Hk; simpl; [|discriminate].
    destruct (str_truthy a) eqn:Ha; simpl; [|discriminate].
    intros _. right. split; [reflexivity|].
    exists a, k. repeat split; try reflexivity; intros ->; discriminate.
Qed.

(** X12. Within one tenant a lock key determines the user: two calls of
    the identify/track domain with the same key, or two group calls
    with the same key, are for the same resolved user id. *)
Theorem lock_key_determines_user
    (s : Settings) (m1 m2 : Msg) (f1 f2 : Callback) :
  (lock_key_of (trackV2 s m1 f1) = lock_key_of (identifyV2 s m2 f2) ->
   default "" (js_or (userId m1) (email m1))
   = default "" (js_or (userId m2) (email m2))) /\
  (lock_key_of (groupV2 s m1 f1) = lock_key_of (groupV2 s m2 f2) ->
   default "" (js_or (userId m1) (email m1))
   = default "" (js_or (userId m2) (email m2))).
Proof.
  unfold trackV2, identifyV2, groupV2, lock_key_of, join. simpl. split.
  - intros [= H]. apply (inj (String.append _)) in H.
    rewrite !append_cons in H. injection H as H. exact H.
  - intros [= H]. apply (inj (String.append _)) in H.
    rewrite !append_cons in H. injection H as H. exact H.
Qed.

(** X13. The group domain is separate only up to the spelling of the
    user id: a track (or identify) call for the user "groups:x" locks
    the very key that a group call for the user "x" locks. *)
Theorem groups_prefixed_user_shares_group_key
    (s : Settings) (mt mg : Msg) (ft fg : Callback) (x : string) :
  js_or (userId mt) (email mt) = Some ("groups:" +:+ x) ->
  js_or (userId mg) (email mg) = Some x ->
  lock_key_of (trackV2 s mt ft) = lock_key_of (groupV2 s mg fg).
Proof.
  intros Ht Hg. unfold trackV2, groupV2, lock_key_of, join. simpl.
  rewrite Ht, Hg. simpl. f_equal.
  rewrite !append_assoc. reflexivity.
Qed.

(** X14. The directory keys of the two data types never meet: the key
    of a track job differs from the key of a group job, whoever the
    users are. *)
Theorem events_and_users_job_keys_differ
    (s : Settings) (m1 m2 : Msg) :
  jobKey BTrack s m1 <> jobKey BGroup s m2.
Proof.
  unfold jobKey, join. simpl. rewrite !append_assoc.
  intros H. apply (inj (String.append _)) in H.
  rewrite !append_cons in H. discriminate H.
Qed.

(** ** Date keys *)

(** X15. [endswith] holds exactly when the string splits into a prefix
    and a tail whose lower-case form is the suffix; the suffix itself is
    compared as given. *)
Theorem endswith_iff (key suf : string) :
  endswith key suf = true <->
  exists pre tl, key = pre +:+ tl /\ toLowerCase tl = suf.
Proof.
  split.
  - intros H.
    destruct (decide (String.length suf <= String.length key)%nat) as [Hle|Hgt].
    + destruct (split_suffix _ _ Hle) as (pre & tl & -> & Hl).
      rewrite (endswith_append _ _ _ Hl) in H.
      apply String.eqb_eq in H. eauto.
    + rewrite endswith_short in H by lia. discriminate H.
  - intros (pre & tl & -> & Htl).
    rewrite endswith_append
      by (rewrite <- Htl, toLowerCase_length; reflexivity).
    apply String.eqb_eq. exact Htl.
Qed.

(** X16. The result of [dateKey] always ends in "_at" (in some case),
    and [dateKey] leaves its own results alone. *)
Theorem dateKey_canonical (key : string) :
  endswith (dateKey key) "_at" = true /\
  dateKey (dateKey key) = dateKey key.
Proof.
  assert (Hends : endswith (dateKey key) "_at" = true).
  { unfold dateKey. destruct (endswith key "_at") eqn:E1; [exact E1|].
    destruct (endswith key " at");
      exact (endswith_append _ "_at" "_at" eq_refl). }
  split; [exact Hends|].
  unfold dateKey at 1. rewrite Hends. reflexivity.
Qed.

Section MoreTraitsFacts.

Variable isostring : string -> bool.
Variable time : Value -> option Z.

Lemma format_entry_not_date (kv : string * Value) :
  date_like isostring (snd (format_entry isostring time kv)) = false.
Proof.
  destruct kv as [k v]. unfold format_entry.
  destruct (date_like isostring v) eqn:E; [|exact E].
  simpl. destruct (time v); reflexivity.
Qed.

Lemma write_entries_no_dates (l : list (string * Value))
    (m : gmap string Value) :
  (forall k v, m !! k = Some v -> date_like isostring v = false) ->
  forall k v, fold_left (write_entry isostring time) l m !! k = Some v ->
              date_like isostring v = false.
Proof.
  revert m. induction l as [|kv l IH]; intros m Hm; [exact Hm|].
  simpl. apply IH. intros k v. unfold write_entry.
  pose proof (format_entry_not_date kv) as Hkv.
  destruct (format_entry isostring time kv) as [k' v'].
  destruct (String.eqb k' "__proto__"); [apply Hm|].
  rewrite lookup_insert_Some. intros [[_ <-]|[_ H]]; [exact Hkv | eauto].
Qed.

Lemma filter_all {A : Type} (P : A -> Prop) `{forall x, Decision (P x)}
    (l : list A) :
  (forall x, x ∈ l -> P x) -> filter P l = l.
Proof.
  induction l as [|x l IH]; intros Hall; [reflexivity|].
  rewrite filter_cons_True by (apply Hall; left).
  rewrite IH; [reflexivity|]. intros y Hy. apply Hall. right. exact Hy.
Qed.

Lemma write_entries_plain (l : list (string * Value)) (m : gmap string Value) :
  (forall kv, kv ∈ l -> date_like isostring (snd kv) = false) ->
  NoDup (fst <$> l) ->
  fold_left (write_entry isostring time) l m
  = list_to_map (filter (fun kv => fst kv <> "__proto__") l) ∪ m.
Proof.
  revert m. induction l as [|[k v] l IH]; intros m Hplain Hnd.
  - simpl. rewrite (left_id ∅ (∪)). reflexivity.
  - rewrite fmap_cons, NoDup_cons in Hnd. destruct Hnd as [Hk Hnd].
    simpl. rewrite IH; [|intros kv Hin; apply Hplain; right; exact Hin|exact Hnd].
    pose proof (Hplain (k, v) (list_elem_of_here _ _)) as Hkv. simpl in Hkv.
    unfold write_entry, format_entry. rewrite Hkv.
    destruct (String.eqb k "__proto__") eqn:E.
    + apply String.eqb_eq in E.
      rewrite filter_cons_False by (simpl; intros Hne; exact (Hne E)).
      reflexivity.
    + apply String.eqb_neq in E.
      rewrite filter_cons_True by exact E.
      rewrite list_to_map_cons, <- insert_union_l. symmetry.
      apply insert_union_r, not_elem_of_list_to_map_1.
      intros Hin. apply Hk.
      apply list_elem_of_fmap in Hin as (kv & -> & Hin).
      apply list_elem_of_filter in Hin as [_ Hin].
      apply list_elem_of_fmap. exists kv. split; [reflexivity | exact Hin].
Qed.

(** X17. The object returned by [formatTraits] holds no Date and no ISO
    date string at its top level. *)
Theorem formatTraits_output_has_no_dates
    (traits : list (string * Value)) (k : string) (v : Value) :
  formatTraits isostring time traits !! k = Some v ->
  date_like isostring v = false.
Proof.
  unfold formatTraits. apply write_entries_no_dates.
  intros k' v' H. rewrite lookup_empty in H. discriminate H.
Qed.

(** X18. On an object none of whose values is a date, [formatTraits]
    returns the same properties, save an own property "__proto__", which
    is not copied. *)
Theorem formatTraits_without_dates_is_copy (traits : list (string * Value)) :
  (forall kv, kv ∈ traits -> date_like isostring (snd kv) = false) ->
  NoDup (fst <$> traits) ->
  formatTraits isostring time traits
  = list_to_map (filter (fun kv => fst kv <> "__proto__") traits).
Proof.
  intros Hplain Hnd. unfold formatTraits.
  rewrite (write_entries_plain _ _ Hplain Hnd).
  apply (right_id ∅ (∪)).
Qed.

(** X19. Formatting twice changes nothing: however the properties of a
    result are listed, formatting them again gives that result back. *)
Theorem formatTraits_idempotent (traits l : list (string * Value)) :
  NoDup (fst <$> l) ->
  list_to_map l = formatTraits isostring time traits ->
  formatTraits isostring time l = formatTraits isostring time traits.
Proof.
  intros Hnd Hl.
  assert (Hin : forall k v, (k, v) ∈ l ->
            formatTraits isostring time traits !! k = Some v).
  { intros k v Hkv. rewrite <- Hl.
    exact (elem_of_list_to_map_1 (M := gmap string) l k v Hnd Hkv). }
  assert (Hplain : forall kv, kv ∈ l -> date_like isostring (snd kv) = false).
  { intros [k v] Hkv. simpl.
    pose proof (Hin k v Hkv) as Hlook. unfold formatTraits in Hlook.
    refine (write_entries_no_dates _ _ _ _ _ Hlook).
    intros k' v' H. rewrite lookup_empty in H. discriminate H. }
  assert (Hkeys : forall kv, kv ∈ l -> fst kv <> "__proto__").
  { intros [k v] Hkv Hk. simpl in Hk. subst k.
    pose proof (Hin _ v Hkv) as Hlook. unfold formatTraits in Hlook.
    rewrite (fold_entries_no_proto isostring time traits ∅ (lookup_empty _))
      in Hlook.
    discriminate Hlook. }
  unfold formatTraits at 1.
  rewrite (write_entries_plain _ _ Hplain Hnd), (filter_all _ _ Hkeys), <- Hl.
  apply (right_id ∅ (∪)).
Qed.

End MoreTraitsFacts.

(** ** The json of the V1 group call *)

Lemma get_set_field_eq (k : string) (v : Value) (fs : list (string * Value)) :
  get_field k (set_field k v fs) = v.
Proof.
  induction fs as [|[k' v'] fs IH]; simpl.
  - rewrite String.eqb_refl. reflexivity.
  - destruct (String.eqb k' k) eqn:E; simpl.
    + rewrite String.eqb_refl. reflexivity.
    + rewrite E. exact IH.
Qed.

Lemma get_set_field_ne (k k0 : string) (v : Value) (fs : list (string * Value)) :
  k0 <> k -> get_field k0 (set_field k v fs) = get_field k0 fs.
Proof.
  intros Hne. induction fs as [|[k' v'] fs IH]; simpl.
  - apply String.eqb_neq in Hne. rewrite String.eqb_sym, Hne. reflexivity.
  - destruct (String.eqb k' k) eqn:E; simpl.
    + apply String.eqb_eq in E. subst k'.
      apply String.eqb_neq in Hne. rewrite String.eqb_sym, Hne. reflexivity.
    + rewrite IH. reflexivity.
Qed.

(** X20. For a group message whose raw json is an object, the json that
    [groupV1] hands to [new Identify] has the group's userId, keeps every
    other top-level field except [traits], and has as [traits] one
    company: the group's traits with [id] set to the groupId (replacing
    an [id] the traits had), or just that [id] when the message has no
    traits. *)
Theorem group_json_has_one_company (g : Msg) (fs : list (string * Value)) :
  json g = VObj fs ->
  prop "userId" (group_json g) = of_opt (userId g) /\
  (forall k, k <> "userId" -> k <> "traits" ->
             prop k (group_json g) = get_field k fs) /\
  (forall tfs, get_field "traits" fs = VObj tfs ->
     exists tfs',
       prop "traits" (group_json g) = VObj [("companies", VArr [VObj tfs'])] /\
       get_field "id" tfs' = of_opt (groupId g) /\
       forall k, k <> "id" -> get_field k tfs' = get_field k tfs) /\
  (truthy (get_field "traits" fs) = false ->
     prop "traits" (group_json g)
     = VObj [("companies", VArr [VObj [("id", of_opt (groupId g))]])]).
Proof.
  intros Hj. unfold group_json. rewrite Hj. simpl.
  split; [|split; [|split]].
  - rewrite get_set_field_ne by discriminate. apply get_set_field_eq.
  - intros k Hu Ht. rewrite !get_set_field_ne by congruence. reflexivity.
  - intros tfs Htr. rewrite Htr. simpl.
    exists (set_field "id" (of_opt (groupId g)) tfs).
    split; [apply get_set_field_eq|].
    split; [apply get_set_field_eq|].
    intros k Hk. apply get_set_field_ne. exact Hk.
  - intros Hfalsy. rewrite Hfalsy. simpl. apply get_set_field_eq.
Qed.

(** ** More on concurrent requests *)

Lemma holder_of_log (keys : list string) (c : Config) (i : nat) (key : string) :
  Inv keys c ->
  keys !! i = Some key ->
  acquired i key (log c) -> ~ released i key (log c) ->
  exists p, pool c !! i = Some p /\ holding key p.
Proof.
  intros HI Hk Hacq Hnrel.
  destruct (lookup_lt_is_Some_2 (pool c) i) as [p Hp].
  { rewrite (inv_length _ _ HI). apply lookup_lt_is_Some_1. eauto. }
  exists p. split; [exact Hp|].
  destruct (inv_phase _ _ HI _ _ _ Hk Hp) as [_ Hs|Hh _ _ _|_ Himp].
  - destruct (Hs _ Hacq).
  - exact Hh.
  - destruct (Hnrel (Himp Hacq)).
Qed.

(** X21. However the requests interleave, a lock key that has not
    expired has one holder at a time: of two different requests that
    have both been granted it, if one has not released it then the other
    has. *)
Theorem one_holder_per_key
    (s : Settings) (calls : list Call) (c : Config)
    (i j : nat) (ci cj : Call) :
  rtc step (start (program s <$> calls)) c ->
  call_key s ci ∉ expired c ->
  i <> j ->
  calls !! i = Some ci ->
  calls !! j = Some cj ->
  call_key s ci = call_key s cj ->
  (i, EvLock (call_key s ci) None) ∈ log c ->
  (i, EvUnlock (call_key s ci)) ∉ log c ->
  (j, EvLock (call_key s cj) None) ∈ log c ->
  (j, EvUnlock (call_key s cj)) ∈ log c.
Proof.
  intros Hrun Hlive Hij Hi Hj Hkey Hai Hri Haj.
  assert (Hall : Forall2 request (call_key s <$> calls) (program s <$> calls)).
  { apply Forall2_fmap, Forall_Forall2_diag, Forall_forall.
    intros x _. apply program_request. }
  pose proof (inv_reachable _ _ _ Hall Hrun) as HI.
  assert (Hki : (call_key s <$> calls) !! i = Some (call_key s cj))
    by (rewrite list_lookup_fmap, Hi; simpl; rewrite Hkey; reflexivity).
  assert (Hkj : (call_key s <$> calls) !! j = Some (call_key s cj))
    by (rewrite list_lookup_fmap, Hj; reflexivity).
  rewrite Hkey in Hai, Hri, Hlive.
  destruct (holder_of_log _ _ _ _ HI Hki Hai Hri) as (pi & Hpi & Hhi).
  destruct (lookup_lt_is_Some_2 (pool c) j) as [pj Hpj].
  { rewrite (inv_length _ _ HI). apply lookup_lt_is_Some_1. eauto. }
  destruct (inv_phase _ _ HI _ _ _ Hkj Hpj) as [_ Hs|Hhj _ _ _|_ Himp].
  - destruct (Hs _ Haj).
  - destruct (inv_exclusive _ _ HI i j _ pi pj Hlive Hij Hki Hkj Hpi Hpj
                Hhi Hhj).
  - exact (Himp Haj).
Qed.

(** X22. A group call does not wait for an identify of the same user:
    there is an interleaving in which the identify holds its key and the
    group call is granted its own. *)
Theorem group_does_not_wait_for_identify
    (s : Settings) (mi mg : Msg) :
  js_or (userId mi) (email mi) = js_or (userId mg) (email mg) ->
  exists c,
    rtc step (start (program s <$> [CIdentify mi; CGroup mg])) c /\
    log c = [(0%nat, EvLock (call_key s (CIdentify mi)) None);
             (1%nat, EvLock (call_key s (CGroup mg)) None)] /\
    call_key s (CIdentify mi) ∈ held c /\
    call_key s (CGroup mg) ∈ held c.
Proof.
  intros Hid.
  assert (Hne : call_key s (CGroup mg) <> call_key s (CIdentify mi)).
  { unfold call_key, join. simpl. rewrite Hid. apply groups_key_differs. }
  eexists. split.
  - eapply rtc_l.
    { eapply (step_lock_granted _ 0%nat); [reflexivity|].
      apply not_elem_of_empty. }
    eapply rtc_l.
    { eapply (step_lock_granted _ 1%nat); [reflexivity|].
      simpl. rewrite elem_of_union, elem_of_singleton.
      intros [H|H]; [exact (Hne H) | exact (not_elem_of_empty _ H)]. }
    apply rtc_refl.
  - split; [reflexivity|]. simpl. split.
    + apply elem_of_union_r, elem_of_union_l, elem_of_singleton. reflexivity.
    + apply elem_of_union_l, elem_of_singleton. reflexivity.
Qed.

End Integration.

(** * The theorems at the fixtures

    Each statement above that has a premise is applied here to a run of
    the fixtures. *)

(** Track with a stale job "J1": the append fails with a server error,
    the create succeeds, the caller gets the create's response. *)
Lemma append_failure_falls_back_to_create_witness :
  exists t : list (@Event string),
    exec (trackV2 test_mapper test_base64 test_settings (test_message ATrack) Return)
         [RLock None; RGet (GetOk (Some "J1")); RPost (PostErr server_error None);
          RPost (PostOk created_J2); RNow 1000000; RSet SetOk; RUnlock None]
      = Some t /\
    count is_append t = 1%nat /\
    count is_create t = 1%nat /\
    last t = Some (EvCallback None (Some created_J2)).
Proof.
  eexists. split; [reflexivity|].
  destruct (append_failure_falls_back_to_create test_mapper test_base64
              BTrack test_settings (test_message ATrack) "J1"
              [RPost (PostErr server_error None); RPost (PostOk created_J2);
               RNow 1000000; RSet SetOk; RUnlock None]
              _ eq_refl eq_refl)
    as (appended & rest & tail & Hrs & _ & Ha & Hfail).
  injection Hrs as <- <-.
  destruct (Hfail server_error None eq_refl)
    as (created & rest' & tail' & Hrest & _ & Hc & _ & Hok).
  split; [exact Ha|]. split; [exact Hc|].
  injection Hrest as <- _. exact (Hok created_J2 eq_refl).
Defined.

(** Group whose lookup fails: one unlock, then the callback. *)
Lemma unlock_once_before_callback_witness :
  exists t : list (@Event string),
    exec (program test_mapper test_base64 test_settings
            (CGroup (test_message AGroup)))
         [RLock None; RGet (GetErr server_error); RUnlock None]
      = Some t /\
    count is_unlock t = 1%nat.
Proof.
  eexists. split; [reflexivity|].
  destruct (unlock_once_before_callback test_mapper test_base64 test_settings
              (CGroup (test_message AGroup))
              [RGet (GetErr server_error); RUnlock None] _ eq_refl)
    as (pre & e & r & _ & _ & Hone).
  exact Hone.
Defined.

(** Track with an empty directory and a create that fails. *)
Lemma directory_miss_creates_once_witness :
  exists t : list (@Event string),
    exec (bulk test_mapper test_base64 BTrack test_settings
            (test_message ATrack) Return)
         [RLock None; RGet (GetOk None); RPost (PostErr server_error None);
          RUnlock None]
      = Some t /\
    count is_create t = 1%nat /\ count is_append t = O.
Proof.
  eexists. split; [reflexivity|].
  destruct (directory_miss_creates_once test_mapper test_base64 BTrack
              test_settings (test_message ATrack)
              [RPost (PostErr server_error None); RUnlock None] _ eq_refl)
    as (tail & _ & Hc & Ha).
  split; [exact Hc | exact Ha].
Defined.

(** Group with an empty directory: the create succeeds and the write of
    the new job id fails. *)
Lemma directory_write_failure_is_absorbed_witness :
  exists t : list (@Event string),
    exec (bulk test_mapper test_base64 BGroup test_settings
            (test_message AGroup) Return)
         ([RLock None; RGet (GetOk None)]
          ++ [RPost (PostOk created_J2); RNow 1000000;
              RSet (SetFail server_error); RUnlock None])
      = Some t /\
    last t = Some (EvCallback None (Some created_J2)).
Proof.
  eexists. split; [reflexivity|].
  exact (proj1 (directory_write_failure_is_absorbed test_mapper test_base64
                  BGroup test_settings (test_message AGroup)
                  [RLock None; RGet (GetOk None)] created_J2 1000000
                  server_error None _ eq_refl)).
Defined.

(** Track whose lookup fails. *)
Lemma directory_read_failure_unlocks_and_fails_witness :
  exec (bulk test_mapper test_base64 BTrack test_settings
          (test_message ATrack) Return)
       [RLock None; RGet (GetErr server_error); RUnlock None]
  = Some [EvLock "fcxywseo:user42" None; EvGet "fcxywseo:jobs:events:user42";
          EvUnlock "fcxywseo:user42"; EvCallback (Some server_error) None].
Proof.
  pose proof (directory_read_failure_unlocks_and_fails test_mapper test_base64
                BTrack test_settings (test_message ATrack) server_error
                [RUnlock None] _ eq_refl) as [Ht _].
  exact (f_equal Some (eq_sym Ht)).
Defined.

(** The three lock keys for user42 of the test tenant. *)
Lemma identify_track_share_key_group_differs_witness :
  lock_key_of (identifyV2 test_mapper test_base64 test_settings
                 (test_message AIdentify) Return)
    = Some "fcxywseo:user42" /\
  lock_key_of (trackV2 test_mapper test_base64 test_settings
                 (test_message ATrack) Return)
    = Some "fcxywseo:user42" /\
  lock_key_of (groupV2 test_mapper test_base64 test_settings
                 (test_message AGroup) Return)
    = Some "fcxywseo:groups:user42".
Proof.
  destruct (identify_track_share_key_group_differs test_mapper test_base64
              test_settings (test_message AIdentify) (test_message ATrack)
              (test_message AGroup) Return Return Return (Some "user42")
              eq_refl eq_refl eq_refl)
    as (Hit & Ht & Hg & _).
  split; [exact (eq_trans Hit Ht)|]. split; [exact Ht | exact Hg].
Defined.



(** A date under "created" is written under "created_at"; nothing after
    it is written there. *)
Lemma formatTraits_last_write_wins_witness :
  formatTraits (fun _ => false) (fun _ => Some 1451606400)
    [("created", VDate 1451606400000); ("plan", VStr "pro")] !! "created_at"
  = Some (VNum 1451606400).
Proof.
  destruct (formatTraits_last_write_wins (fun _ => false)
              (fun _ => Some 1451606400)
              [("created", VDate 1451606400000); ("plan", VStr "pro")])
    as (_ & _ & _ & _ & _ & Hlookup & _).
  refine (Hlookup [] ("created", VDate 1451606400000) [("plan", VStr "pro")]
            eq_refl _ _).
  - discriminate.
  - apply not_elem_of_cons. split; [discriminate | apply not_elem_of_nil].
Defined.

(** A date under "created" after a plain "created_at": both are written
    under "created_at" and the plain one is lost. *)
Lemma formatTraits_later_write_overwrites :
  ~ every_entry_formatted (fun _ => false) (fun _ => Some 0)
      [("created_at", VStr "n/a"); ("created", VDate 0)].
Proof.
  intros H.
  specialize (H ("created_at", VStr "n/a") (list_elem_of_here _ _)).
  change (<["created_at" := VNum 0]>
            (<["created_at" := VStr "n/a"]> (∅ : gmap string Value))
          !! "created_at" = Some (VStr "n/a")) in H.
  rewrite lookup_insert_eq in H. discriminate H.
Qed.

(** With the flag set, [track] is [trackV1]; with the flag missing, it
    is [trackV2]. *)
Lemma initialize_selects_v1_when_flag_truthy_witness :
  track (initialize test_mapper test_mapper test_base64 test_Identify
           test_settings_v1)
    = trackV1 test_mapper test_base64 test_settings_v1 /\
  track (initialize test_mapper test_mapper test_base64 test_Identify
           test_settings)
    = trackV2 test_mapper test_base64 test_settings.
Proof.
  split.
  - exact (proj1 (proj2 (proj1 (initialize_selects_v1_when_flag_truthy
                                  test_mapper test_mapper test_base64
                                  test_Identify test_settings_v1) eq_refl))).
  - exact (proj1 (proj2 (proj1 (proj2 (initialize_selects_v1_when_flag_truthy
                                         test_mapper test_mapper test_base64
                                         test_Identify test_settings))
                          eq_refl))).
Defined.

(** ** The remaining paths of a track call at the fixtures *)

(** The lock is refused: the callback gets the error and nothing else
    is called. *)
Example track_lock_refused :
  exec (trackV2 test_mapper test_base64 test_settings (test_message ATrack) Return)
       [RLock (Some server_error)]
  = Some [EvLock "fcxywseo:user42" (Some server_error);
          EvCallback (Some server_error) None].
Proof. reflexivity. Qed.

(** The directory has "J1" and the append succeeds. *)
Example track_append_succeeds :
  exec (trackV2 test_mapper test_base64 test_settings (test_message ATrack) Return)
       [RLock None; RGet (GetOk (Some "J1")); RPost (PostOk created_J2);
        RUnlock None]
  = Some [EvLock "fcxywseo:user42" None;
          EvGet "fcxywseo:jobs:events:user42";
          EvPost "/bulk/events" (headers test_base64 test_settings)
            {| items := "track"; job := Some "J1" |};
          EvUnlock "fcxywseo:user42";
          EvCallback None (Some created_J2)].
Proof. reflexivity. Qed.

(** The append fails and so does the create: the caller gets the
    create's error. *)
Example track_fallback_create_fails :
  exec (trackV2 test_mapper test_base64 test_settings (test_message ATrack) Return)
       [RLock None; RGet (GetOk (Some "J1")); RPost (PostErr server_error None);
        RPost (PostErr {| message := "Unauthorized" |} None); RUnlock None]
  = Some [EvLock "fcxywseo:user42" None;
          EvGet "fcxywseo:jobs:events:user42";
          EvPost "/bulk/events" (headers test_base64 test_settings)
            {| items := "track"; job := Some "J1" |};
          EvPost "/bulk/events" (headers test_base64 test_settings)
            {| items := "track"; job := None |};
          EvUnlock "fcxywseo:user42";
          EvCallback (Some {| message := "Unauthorized" |}) None].
Proof. reflexivity. Qed.

(** An empty string from the directory counts as no job. *)
Example track_empty_job_id_creates :
  exec (trackV2 test_mapper test_base64 test_settings (test_message ATrack) Return)
       [RLock None; RGet (GetOk (Some "")); RPost (PostOk created_J2);
        RNow 1000000; RSet SetOk; RUnlock None]
  = Some [EvLock "fcxywseo:user42" None;
          EvGet "fcxywseo:jobs:events:user42";
          EvPost "/bulk/events" (headers test_base64 test_settings)
            {| items := "track"; job := None |};
          EvNow;
          EvSet "fcxywseo:jobs:events:user42" (Some "J2") (Some (-915000));
          EvUnlock "fcxywseo:user42";
          EvCallback None (Some created_J2)].
Proof. reflexivity. Qed.

(** * The further properties at the fixtures *)

Lemma lock_refused_goes_straight_to_callback_witness :
  exists t : list (@Event string),
    exec (program test_mapper test_base64 test_settings
            (CGroup (test_message AGroup)))
         [RLock (Some server_error)] = Some t /\
    t = [EvLock "fcxywseo:groups:user42" (Some server_error);
         EvCallback (Some server_error) None].
Proof.
  eexists. split; [reflexivity|].
  exact (proj2 (lock_refused_goes_straight_to_callback test_mapper test_base64
                  test_settings (CGroup (test_message AGroup)) server_error
                  [] _ eq_refl)).
Defined.

Lemma append_success_leaves_directory_alone_witness :
  exists t : list (@Event string),
    exec (bulk test_mapper test_base64 BTrack test_settings
            (test_message ATrack) Return)
         [RLock None; RGet (GetOk (Some "J1")); RPost (PostOk created_J2);
          RUnlock None] = Some t /\
    count is_set t = O /\ count is_create t = O.
Proof.
  eexists. split; [reflexivity|].
  destruct (append_success_leaves_directory_alone test_mapper test_base64
              BTrack test_settings (test_message ATrack) "J1" created_J2
              [RUnlock None] _ eq_refl eq_refl) as [_ Ht].
  exact (conj (f_equal (count is_set) Ht) (f_equal (count is_create) Ht)).
Defined.

Lemma create_failure_is_reported_witness :
  exists t : list (@Event string),
    exec (bulk test_mapper test_base64 BGroup test_settings
            (test_message AGroup) Return)
         ([RLock None; RGet (GetOk None)]
          ++ [RPost (PostErr server_error None); RUnlock None]) = Some t /\
    last t = Some (EvCallback (Some server_error) None) /\
    count is_set t = O.
Proof.
  eexists. split; [reflexivity|].
  destruct (create_failure_is_reported test_mapper test_base64 BGroup
              test_settings (test_message AGroup)
              [RLock None; RGet (GetOk None)] server_error None None _ eq_refl)
    as (Hl & _ & Hs).
  split; [exact Hl | exact Hs].
Defined.

Lemma directory_calls_use_one_key_witness :
  "fcxywseo:jobs:events:user42"
  = jobKey BTrack test_settings (test_message ATrack).
Proof.
  refine (proj2 (directory_calls_use_one_key test_mapper test_base64 BTrack
                   test_settings (test_message ATrack)
                   [RLock None; RGet (GetOk None); RPost (PostOk created_J2);
                    RNow 1000000; RSet SetOk; RUnlock None]
                   _ eq_refl eq_refl)
                "fcxywseo:jobs:events:user42" (Some "J2") (Some (-915000)) _).
  repeat first [apply list_elem_of_here | apply list_elem_of_further].
Defined.

Lemma bulk_run_is_bounded_witness :
  exists t : list (@Event string),
    exec (bulk test_mapper test_base64 BTrack test_settings
            (test_message ATrack) Return)
         [RLock None; RGet (GetOk (Some "J1")); RPost (PostErr server_error None);
          RPost (PostOk created_J2); RNow 1000000; RSet SetOk; RUnlock None]
      = Some t /\
    (count is_bulk_post t <= 2)%nat.
Proof.
  eexists. split; [reflexivity|].
  exact (proj1 (proj2 (proj2 (proj2
           (bulk_run_is_bounded test_mapper test_base64 BTrack test_settings
              (test_message ATrack)
              [RGet (GetOk (Some "J1")); RPost (PostErr server_error None);
               RPost (PostOk created_J2); RNow 1000000; RSet SetOk;
               RUnlock None] _ eq_refl))))).
Defined.

Lemma directory_written_iff_create_succeeded_witness :
  exists t : list (@Event string),
    exec (bulk test_mapper test_base64 BTrack test_settings
            (test_message ATrack) Return)
         [RLock None; RGet (GetOk None); RPost (PostOk created_J2);
          RNow 1000000; RSet SetOk; RUnlock None] = Some t /\
    count is_set t = 1%nat.
Proof.
  eexists. split; [reflexivity|].
  apply (directory_written_iff_create_succeeded test_mapper test_base64 BTrack
           test_settings (test_message ATrack)
           [RLock None; RGet (GetOk None); RPost (PostOk created_J2);
            RNow 1000000; RSet SetOk; RUnlock None] _ eq_refl).
  split; [reflexivity | eexists; reflexivity].
Defined.

Lemma create_success_writes_id_and_expiry_witness :
  exists t : list (@Event string),
    exec (bulk test_mapper test_base64 BTrack test_settings
            (test_message ATrack) Return)
         ([RLock None; RGet (GetOk None)]
          ++ [RPost (PostOk created_J2); RNow 1000000; RSet SetOk;
              RUnlock None]) = Some t /\
    EvSet "fcxywseo:jobs:events:user42" (Some "J2") (Some (-915000)) ∈ t.
Proof.
  eexists. split; [reflexivity|].
  exact (proj1 (create_success_writes_id_and_expiry test_mapper test_base64
                  BTrack test_settings (test_message ATrack)
                  [RLock None; RGet (GetOk None)] created_J2 1000000 SetOk
                  None _ eq_refl)).
Defined.

Lemma identify_passes_outcome_after_unlock_witness :
  exists t : list (@Event string),
    exec (identifyV2 test_mapper test_base64 test_settings
            (test_message AIdentify) Return)
         [RLock None; RPost (PostErr server_error None); RUnlock None]
      = Some t /\
    last t = Some (EvCallback (Some server_error) None).
Proof.
  eexists. split; [reflexivity|].
  destruct (identify_passes_outcome_after_unlock test_mapper test_base64
              test_settings (test_message AIdentify)
              [RPost (PostErr server_error None); RUnlock None] _ eq_refl)
    as (r & u & Hrs & Ht).
  injection Hrs as <- _. exact (f_equal last Ht).
Defined.

Lemma bulk_posts_carry_same_payload_witness :
  items {| items := "track"; job := Some "J1" |}
  = test_mapper ATrack (test_message ATrack) test_settings.
Proof.
  refine (proj2 (proj2 (bulk_posts_carry_same_payload test_mapper test_base64
                   BTrack test_settings (test_message ATrack)
                   [RLock None; RGet (GetOk (Some "J1"));
                    RPost (PostOk created_J2); RUnlock None]
                   _ eq_refl
                   "/bulk/events" (headers test_base64 test_settings)
                   {| items := "track"; job := Some "J1" |} _))).
  repeat first [apply list_elem_of_here | apply list_elem_of_further].
Defined.

Lemma group_v1_is_companies_then_identify_witness :
  exists t : list (@Event string),
    exec (group (initialize test_mapper test_mapper test_base64 test_Identify
                   test_settings_v1) test_group Return)
         [RPost (PostErr server_error (Some created_J2))] = Some t /\
    last t = Some (EvCallback (Some server_error) None).
Proof.
  eexists. split; [reflexivity|].
  destruct (group_v1_is_companies_then_identify test_mapper test_mapper
              test_base64 test_Identify test_settings_v1 test_group
              (PostErr server_error (Some created_J2)) [] _ eq_refl eq_refl)
    as (t' & Ht & Herr & _).
  destruct (Herr server_error eq_refl) as [_ Ht'].
  rewrite Ht' in Ht. exact (f_equal last Ht).
Defined.

Lemma valid_credentials_give_authorization_witness :
  Authorization (headers test_base64 test_settings_oauth) = "Bearer tok_123" /\
  Authorization (headers test_base64 test_settings)
  = "Basic fcxywseo:9d068fa090d38be4c715b669b3f1370f76ac5306".
Proof.
  split.
  - destruct (valid_credentials_give_authorization test_base64
                test_settings_oauth eq_refl)
      as [(tok & Htok & _ & Hauth)|(Hno & _)]; [|discriminate Hno].
    injection Htok as <-. exact Hauth.
  - destruct (valid_credentials_give_authorization test_base64
                test_settings eq_refl)
      as [(tok & Htok & _)|(_ & a & k & Ha & Hk & _ & _ & Hauth)];
      [discriminate Htok|].
    injection Ha as <-. injection Hk as <-. exact Hauth.
Defined.

Lemma lock_key_determines_user_witness :
  default "" (js_or (userId (test_message ATrack)) (email (test_message ATrack)))
  = default "" (js_or (userId (test_message AIdentify))
                      (email (test_message AIdentify))).
Proof.
  exact (proj1 (lock_key_determines_user test_mapper test_base64 test_settings
                  (test_message ATrack) (test_message AIdentify) Return Return)
               eq_refl).
Defined.

Lemma groups_prefixed_user_shares_group_key_witness :
  lock_key_of (trackV2 test_mapper test_base64 test_settings
                 {| action := ATrack; userId := Some "groups:user42";
                    email := None; groupId := None; json := VUndefined |}
                 Return)
  = lock_key_of (groupV2 test_mapper test_base64 test_settings
                   (test_message AGroup) Return).
Proof.
  exact (groups_prefixed_user_shares_group_key test_mapper test_base64
           test_settings
           {| action := ATrack; userId := Some "groups:user42";
              email := None; groupId := None; json := VUndefined |}
           (test_message AGroup) Return Return "user42" eq_refl eq_refl).
Defined.

Lemma formatTraits_output_has_no_dates_witness :
  date_like (fun _ => false) (VNum 1451606400) = false.
Proof.
  refine (formatTraits_output_has_no_dates (fun _ => false)
            (fun _ => Some 1451606400)
            [("created", VDate 1451606400000); ("plan", VStr "pro")]
            "created_at" (VNum 1451606400) _).
  change (<["plan" := VStr "pro"]>
            (<["created_at" := VNum 1451606400]> (∅ : gmap string Value))
          !! "created_at" = Some (VNum 1451606400)).
  rewrite lookup_insert_ne by discriminate. apply lookup_insert_eq.
Defined.

Lemma formatTraits_without_dates_is_copy_witness :
  formatTraits (fun _ => false) (fun _ => Some 0)
    [("__proto__", VStr "x"); ("name", VStr "Segment.io"); ("plan", VStr "pro")]
  = list_to_map
      (filter (fun kv => fst kv <> "__proto__")
         [("__proto__", VStr "x"); ("name", VStr "Segment.io");
          ("plan", VStr "pro")]).
Proof.
  apply formatTraits_without_dates_is_copy.
  - intros kv Hin.
    repeat (apply elem_of_cons in Hin as [->|Hin]; [reflexivity|]).
    apply elem_of_nil in Hin. contradiction.
  - repeat (apply NoDup_cons_2;
            [intros Hin;
             repeat (apply elem_of_cons in Hin as [Hin|Hin];
                     [discriminate Hin|]);
             apply elem_of_nil in Hin; exact Hin|]).
    apply NoDup_nil_2.
Defined.

Lemma formatTraits_idempotent_witness :
  formatTraits (fun _ => false) (fun _ => Some 0) [("created_at", VNum 0)]
  = formatTraits (fun _ => false) (fun _ => Some 0) [("created", VDate 0)].
Proof.
  apply formatTraits_idempotent.
  - apply NoDup_singleton.
  - reflexivity.
Defined.

Lemma group_json_has_one_company_witness :
  exists tfs',
    prop "traits" (group_json test_group)
    = VObj [("companies", VArr [VObj tfs'])] /\
    get_field "id" tfs' = VStr "g1" /\
    get_field "name" tfs' = VStr "Segment.io".
Proof.
  destruct (group_json_has_one_company test_group _ eq_refl)
    as (_ & _ & Htraits & _).
  destruct (Htraits _ eq_refl) as (tfs' & Hprop & Hid & Hrest).
  exists tfs'. split; [exact Hprop|]. split; [exact Hid|].
  exact (Hrest "name" ltac:(discriminate)).
Defined.

(** The track holds the key of user42 and has not released it: the
    identify, granted it earlier, has. *)
Lemma one_holder_per_key_witness :
  exists c : @Config string,
    rtc step
      (start (program test_mapper test_base64 test_settings
                <$> [CIdentify (test_message AIdentify);
                     CTrack (test_message ATrack)])) c /\
    ((1%nat, EvUnlock "fcxywseo:user42") ∉ log c) /\
    ((0%nat, EvUnlock "fcxywseo:user42") ∈ log c).
Proof.
  assert (Hrun : exists c : @Config string,
    rtc step
      (start (program test_mapper test_base64 test_settings
                <$> [CIdentify (test_message AIdentify);
                     CTrack (test_message ATrack)])) c /\
    log c = [(0%nat, EvLock "fcxywseo:user42" None);
             (0%nat, EvPost "/users" (headers test_base64 test_settings)
                       {| items := "identify"; job := None |});
             (0%nat, EvUnlock "fcxywseo:user42");
             (1%nat, EvLock "fcxywseo:user42" None)] /\
    expired c = ∅).
  { eexists. split.
    - eapply rtc_l.
      { eapply (step_lock_granted _ 0%nat);
          [reflexivity | apply not_elem_of_empty]. }
      eapply rtc_l.
      { eapply (step_post _ 0%nat _ _ _ _ (PostOk created_J2)). reflexivity. }
      eapply rtc_l.
      { eapply (step_unlock _ 0%nat). reflexivity. }
      eapply rtc_l.
      { eapply (step_lock_granted _ 1%nat); [reflexivity|].
        simpl. rewrite elem_of_difference, elem_of_singleton.
        intros [_ Hne]. exact (Hne eq_refl). }
      apply rtc_refl.
    - split; reflexivity. }
  destruct Hrun as (c & Hrun & Hlog & Hexp).
  assert (Hlive : call_key test_settings (CTrack (test_message ATrack))
                    ∉ expired c)
    by (rewrite Hexp; apply not_elem_of_empty).
  assert (Hin1 : (1%nat, @EvLock string "fcxywseo:user42" None) ∈ log c)
    by (rewrite Hlog;
        repeat first [apply list_elem_of_here | apply list_elem_of_further]).
  assert (Hin0 : (0%nat, @EvLock string "fcxywseo:user42" None) ∈ log c)
    by (rewrite Hlog; apply list_elem_of_here).
  assert (Hout1 : (1%nat, @EvUnlock string "fcxywseo:user42") ∉ log c).
  { rewrite Hlog. intros H.
    repeat (apply elem_of_cons in H as [H|H]; [discriminate H|]).
    apply elem_of_nil in H. exact H. }
  exists c. split; [exact Hrun|]. split; [exact Hout1|].
  exact (one_holder_per_key test_mapper test_base64 test_settings _ c
           1%nat 0%nat (CTrack (test_message ATrack))
           (CIdentify (test_message AIdentify))
           Hrun Hlive ltac:(discriminate) eq_refl eq_refl eq_refl
           Hin1 Hout1 Hin0).
Defined.

(** Identify and group for user42: both keys are held at once. *)
Lemma group_does_not_wait_for_identify_witness :
  exists c : @Config string,
    rtc step
      (start (program test_mapper test_base64 test_settings
                <$> [CIdentify (test_message AIdentify);
                     CGroup (test_message AGroup)])) c /\
    "fcxywseo:user42" ∈ held c /\
    "fcxywseo:groups:user42" ∈ held c.
Proof.
  destruct (group_does_not_wait_for_identify test_mapper test_base64
              test_settings (test_message AIdentify) (test_message AGroup)
              eq_refl) as (c & Hrun & _ & Hi & Hg).
  exists c. split; [exact Hrun|]. split; [exact Hi | exact Hg].
Defined.
